(** * time-tracker: work phases inferred from commit and issue events

    A shallow embedding of the analysis script ([analyse.mjs]:
    [gatherAllEvents], [calculateWorkPhases], [getWorkDuringTimeframe],
    [printCalendar]) and of the fetch scripts ([findPullRequest],
    [getCommitData], [requestAll], [truncate], [getIssueData]).

    Conventions of the embedding.
    - In the analysis an ISO-8601 UTC string is represented by the
      instant it denotes, in milliseconds since the epoch ([Z]).  On the
      fixed-width strings that the GitHub API delivers, the
      lexicographic order used by the sort comparator is the order of
      the instants.  Where a script compares a date with text of the
      user ([getIssueData]), both stay strings.
    - A JavaScript value that may be [undefined] or [null] is an [option].
    - A call that may throw returns a [Js.result].
    - Durations in minutes are written as the exact rationals ([Q]) that
      the doubles of the script approximate, and only what rounding
      keeps is stated of them; lengths and bounds are stated in
      milliseconds.  [NaN] is kept as a separate value of [Js.number].
    - [parseInt] rounds to a double: integers are exact below [2^53]. *)

From Stdlib Require Import ZArith QArith List Bool Lia Permutation Sorted.
From Stdlib Require Import String Ascii.
Import ListNotations.

Open Scope Z_scope.

(* ================================================================== *)
(** ** JavaScript values and exceptions                                *)
(* ================================================================== *)

Module Js.

Inductive error : Type :=
| TypeError            (* property access on [undefined] or [null] *)
| InvalidArgumentError (* thrown by Luxon for an argument it rejects *)
| Error (msg : string) (* [throw Error(msg)]                        *).

Inductive result (A : Type) : Type :=
| Ok (a : A)
| Throw (e : error).

Arguments Ok {A} a.
Arguments Throw {A} e.

Definition bind {A B} (m : result A) (k : A -> result B) : result B :=
  match m with
  | Ok a => k a
  | Throw e => Throw e
  end.

(** [arr[i]] followed by a property access: out of range the element is
    [undefined] and the access throws a [TypeError]. *)
Definition index {A} (arr : list A) (i : nat) : result A :=
  match nth_error arr i with
  | Some a => Ok a
  | None => Throw TypeError
  end.

(** The loop [for (i = ...) { st = body(i, st) }] over the indices
    [indices], with exceptions propagated. *)
Fixpoint for_each {S} (indices : list nat) (body : nat -> S -> result S)
         (st : S) : result S :=
  match indices with
  | [] => Ok st
  | i :: rest => bind (body i st) (for_each rest body)
  end.

(** [arr.map(f)] where [f] may throw. *)
Fixpoint map_array {A B} (f : A -> result B) (arr : list A)
  : result (list B) :=
  match arr with
  | [] => Ok []
  | a :: rest =>
      bind (f a) (fun b => bind (map_array f rest) (fun bs => Ok (b :: bs)))
  end.

(** Numbers of minutes: the rational that a computation in exact
    arithmetic gives, and [NaN].  The scripts compute in IEEE doubles,
    which round every quotient and every sum; only what rounding keeps
    is stated of a [Num] below: that the result is a number and not
    [NaN], that it is zero, its sign, and that two runs of the same
    additions agree.  Lengths and bounds are stated in milliseconds, on
    the intervals, where the code has integers. *)
Inductive number : Type :=
| Num (q : Q)
| NaN.

(** [acc + x] where [x] may be [undefined] (which converts to [NaN]);
    the sum is the exact one, see [number]. *)
Definition add (acc : number) (x : option Q) : number :=
  match acc, x with
  | Num a, Some b => Num (a + b)
  | _, _ => NaN
  end.

(** [a >= b] on two strings: the order of the code units, a proper
    prefix before the longer string.  A [string] is a sequence of bytes,
    the code units of a text in ASCII. *)
Definition ge_string (a b : string) : bool :=
  match String.compare a b with
  | Lt => false
  | _ => true
  end.

End Js.

Notation "x <- m ;; k" := (Js.bind m (fun x => k))
  (at level 61, m at next level, right associativity).

(* ================================================================== *)
(** ** The part of Luxon the scripts use                                *)
(* ================================================================== *)

Module Luxon.

Definition MS_PER_MINUTE : Z := 60000.

(** A [DateTime] is a valid instant or the invalid object. *)
Inductive DateTime : Type :=
| At (ts : Z)
| InvalidDateTime.

(** [DateTime.fromISO(text)]; [undefined] does not parse and gives the
    invalid [DateTime] ([Settings.throwOnInvalid] is not set). *)
Definition fromISO (text : option Z) : DateTime :=
  match text with
  | Some ts => At ts
  | None => InvalidDateTime
  end.

(** [dt.plus({ minutes })] *)
Definition plus_minutes (ts : Z) (minutes : Z) : Z :=
  ts + minutes * MS_PER_MINUTE.

(** [later.diff(earlier, 'minutes').toObject().minutes]: the
    milliseconds between the two over 60000, here the exact quotient
    (see [Js.number]). *)
Definition diff_minutes (later earlier : Z) : Q :=
  (later - earlier) # 60000.

(** [a > b] on numbers, [b] an integer number of minutes. *)
Definition gt (a : Q) (b : Z) : bool := negb (Qle_bool a (inject_Z b)).

Inductive reason : Type :=
| MissingStart
| MissingEnd
| EndBeforeStart.

(** An [Interval] is valid with its two instants, or invalid. *)
Inductive Interval : Type :=
| Between (s e : Z)
| InvalidInterval (r : reason).

(** [Interval.fromDateTimes(start, end)]: invalid when one of the two is
    invalid or when [end < start]; [end = start] is a valid, empty
    interval. *)
Definition fromDateTimes (start end_ : DateTime) : Interval :=
  match start, end_ with
  | InvalidDateTime, _ => InvalidInterval MissingStart
  | At _, InvalidDateTime => InvalidInterval MissingEnd
  | At s, At e =>
      if e <? s then InvalidInterval EndBeforeStart else Between s e
  end.

(** [this.overlaps(other)]: [this.e > other.s && this.s < other.e];
    every comparison with the fields of an invalid interval is false. *)
Definition overlaps (this other : Interval) : bool :=
  match this, other with
  | Between s1 e1, Between s2 e2 => (s2 <? e1) && (s1 <? e2)
  | _, _ => false
  end.

(** [this.intersection(other)]: an invalid [this] is returned as it is;
    otherwise [s] is the later start and [e] the earlier end, the result
    is [null] ([None]) when [s >= e], that is when the common part is
    empty, and [Interval.fromDateTimes(s, e)] when it is not.  With an
    invalid [other] both [s] and [e] are [undefined], which
    [fromDateTimes] rejects. *)
Definition intersection (this other : Interval)
  : Js.result (option Interval) :=
  match this, other with
  | InvalidInterval _, _ => Js.Ok (Some this)
  | Between _ _, InvalidInterval _ => Js.Throw Js.InvalidArgumentError
  | Between s1 e1, Between s2 e2 =>
      let s := if s2 <? s1 then s1 else s2 in
      let e := if e1 <? e2 then e1 else e2 in
      if e <=? s then Js.Ok None
      else Js.Ok (Some (fromDateTimes (At s) (At e)))
  end.

(** [interval.toDuration(['minutes']).toObject()['minutes']]; the
    object of an invalid duration has no such key. *)
Definition toDuration_minutes (i : Interval) : option Q :=
  match i with
  | Between s e => Some (diff_minutes e s)
  | InvalidInterval _ => None
  end.

(** [this.contains(dateTime)]: [this.s <= dateTime && this.e > dateTime],
    and [false] for an invalid interval. *)
Definition contains (this : Interval) (dateTime : Z) : bool :=
  match this with
  | Between s e => (s <=? dateTime) && (dateTime <? e)
  | InvalidInterval _ => false
  end.

Definition MS_PER_DAY : Z := 86400000.

(** [dt.plus({ day })] and [dt.minus({ day })] in the zone utc, where
    every day has 24 hours. *)
Definition plus_days (ts : Z) (days : Z) : Z := ts + days * MS_PER_DAY.

(** [dt.endOf('day')] in the zone utc: the last millisecond of the
    calendar day of [dt]. *)
Definition endOf_day (ts : Z) : Z := ts - ts mod MS_PER_DAY + (MS_PER_DAY - 1).

End Luxon.

(* ================================================================== *)
(** ** analyse.mjs                                                      *)
(* ================================================================== *)

Module Analyse.
Import Luxon.

(** Entries of the JSON files written by the fetch script. *)
Record Stats : Type := mkStats
  { total : Z; additions : Z; deletions : Z; files : Z }.

Record Commit : Type := mkCommit
  { commit_author : string;
    commit_date : Z;
    commit_message : string;
    commit_pullRequestId : option N;
    commit_sha : string;
    commit_stats : Stats }.

Record Issue : Type := mkIssue
  { issue_author : string;
    issue_date : Z;
    issue_eventType : string;
    issue_issueId : N }.

Record File : Type := mkFile
  { commits : list Commit; issues : list Issue }.

Inductive EventData : Type :=
| OfCommit (c : Commit)
| OfIssue (i : Issue).

Record Event : Type := mkEvent
  { type : string; date : Z; data : EventData }.

(** *** [gatherAllEvents] *)

(** The comparator [(a, b) => a.date < b.date ? -1 : a.date > b.date ? 1 : 0] *)
Definition compareEvents (a b : Event) : Z :=
  if date a <? date b then -1 else if date b <? date a then 1 else 0.

(** [Array.prototype.sort] is a stable sort; it is modelled by
    insertion from the right, which keeps equal elements in order. *)
Fixpoint insert {A} (cmp : A -> A -> Z) (x : A) (l : list A) : list A :=
  match l with
  | [] => [x]
  | y :: l' => if 0 <? cmp x y then y :: insert cmp x l' else x :: l
  end.

Fixpoint sort {A} (cmp : A -> A -> Z) (l : list A) : list A :=
  match l with
  | [] => []
  | x :: l' => insert cmp x (sort cmp l')
  end.

(** The events pushed for one file: its commits, then its issues. *)
Definition eventsOfFile (f : File) : list Event :=
  map (fun c => mkEvent "commit" (commit_date c) (OfCommit c)) (commits f)
  ++ map (fun i => mkEvent "issue" (issue_date i) (OfIssue i)) (issues f).

Definition gatherAllEvents (files : list File) : list Event :=
  sort compareEvents (flat_map eventsOfFile files).

(** *** [calculateWorkPhases] *)

(** An element of the [phases] array before it becomes an [Interval]. *)
Record Phase : Type := mkPhase { from : Z; to : option Z }.

(** The variables the loop updates. *)
Record Walk : Type := mkWalk
  { phases : list Phase; phaseFrom : Z; phaseTo : option Z }.

Definition PADDING : Z := 5.

(** The body of the loop for the pair [from], [to].  [threshold] is
    [60 * 4] in analyse.mjs and [options.threshold] in the variant with
    command-line options.  On the representation of dates
    [DateTime.fromISO(...).toISO()] is the identity. *)
Definition step (threshold : Z) (from to : Event) (w : Walk) : Walk :=
  let fromDate := date from in
  let toDate := date to in
  let minutes := diff_minutes toDate fromDate in
  if gt minutes threshold then
    mkWalk (phases w ++ [mkPhase (phaseFrom w)
                                 (Some (plus_minutes fromDate PADDING))])
           toDate
           (phaseTo w)
  else
    mkWalk (phases w) (phaseFrom w) (Some toDate).

Definition loopBody (threshold : Z) (timeline : list Event)
           (i : nat) (w : Walk) : Js.result Walk :=
  from <- Js.index timeline i ;;
  to <- Js.index timeline (i + 1) ;;
  Js.Ok (step threshold from to w).

Definition toInterval (p : Phase) : Interval :=
  fromDateTimes (fromISO (Some (from p))) (fromISO (to p)).

(** The [phases] array after the last [push]. *)
Definition rawPhases (threshold : Z) (timeline : list Event)
  : Js.result (list Phase) :=
  first <- Js.index timeline 0 ;;
  w <- Js.for_each (seq 0 (List.length timeline - 1))
                   (loopBody threshold timeline)
                   (mkWalk [] (date first) None) ;;
  Js.Ok (phases w ++ [mkPhase (phaseFrom w) (phaseTo w)]).

Definition calculateWorkPhases (threshold : Z) (timeline : list Event)
  : Js.result (list Interval) :=
  ps <- rawPhases threshold timeline ;;
  Js.Ok (map toInterval ps).

(** analyse.mjs, where the threshold is the constant [60 * 4]. *)
Definition calculateWorkPhases_4h := calculateWorkPhases (60 * 4).

(** *** [getWorkDuringTimeframe] *)

(** [.reduce((acc, interval) => acc + interval.toDuration(...)..., acc)]
    over the intersections: [toDuration] called on [null] throws. *)
Fixpoint sumMinutes (acc : Js.number) (l : list (option Interval))
  : Js.result Js.number :=
  match l with
  | [] => Js.Ok acc
  | None :: _ => Js.Throw Js.TypeError
  | Some i :: l' => sumMinutes (Js.add acc (toDuration_minutes i)) l'
  end.

Definition getWorkDuringTimeframe (workIntervals : list Interval)
           (timeframe : Interval) : Js.result Js.number :=
  intersections <-
    Js.map_array (fun interval => intersection timeframe interval)
                 (filter (fun interval => overlaps timeframe interval)
                         workIntervals) ;;
  sumMinutes (Js.Num 0) intersections.

(** The array that [.filter(...).map(...)] hands to [.reduce(...)]:
    the intersections of the timeframe with the phases that overlap
    it. *)
Definition intersections (workIntervals : list Interval)
           (timeframe : Interval) : Js.result (list (option Interval)) :=
  Js.map_array (fun interval => intersection timeframe interval)
               (filter (fun interval => overlaps timeframe interval)
                       workIntervals).

(** *** [printCalendar], [printTotal] *)

Definition DURATION : Z := 30.

(** The interval [phase] of the cell [index] of the row of [currentDay]. *)
Definition cellInterval (currentDay : Z) (index : nat) : Interval :=
  let cellFrom := plus_minutes currentDay (DURATION * Z.of_nat index) in
  let cellTo := plus_minutes cellFrom DURATION in
  fromDateTimes (At cellFrom) (At cellTo).

(** [!!phases.some((interval) => interval.overlaps(phase))] *)
Definition cellIsInPhase (workPhases : list Interval) (phase : Interval)
  : bool :=
  existsb (fun interval => overlaps interval phase) workPhases.

(** [eventsByDay[day].filter((event) => phase.contains(...))] for the
    events [dayEvents] listed under the day (none when the key is
    absent). *)
Definition cellEvents (dayEvents : list Event) (phase : Interval)
  : list Event :=
  filter (fun event => contains phase (date event)) dayEvents.

(** The cells of one row: [new Array((24 * 60) / DURATION)] indices. *)
Definition cellIndices : list nat := seq 0 (Z.to_nat ((24 * 60) / DURATION)).

(** The interval of the whole day and the minutes worked in it. *)
Definition dayInterval (currentDay : Z) : Interval :=
  fromDateTimes (At currentDay) (At (endOf_day currentDay)).

Definition minutesWorked (workPhases : list Interval) (currentDay : Z)
  : Js.result Js.number :=
  getWorkDuringTimeframe workPhases (dayInterval currentDay).

(** The loop [while (currentDay < to)] of analyse.mjs: the days for
    which a row is printed.  [None] when [fuel] iterations do not reach
    the end of the loop. *)
Fixpoint calendarRows (fuel : nat) (currentDay to : Z) : option (list Z) :=
  match fuel with
  | O => None
  | S fuel' =>
      if currentDay <? to then
        let nextDay := plus_days currentDay 1 in
        match calendarRows fuel' nextDay to with
        | Some rows => Some (nextDay :: rows)
        | None => None
        end
      else Some []
  end.

(** The same loop in the variant with command-line options:
    [while (currentDay.plus({ day: 1 }) < to)]. *)
Fixpoint calendarRows_options (fuel : nat) (currentDay to : Z)
  : option (list Z) :=
  match fuel with
  | O => None
  | S fuel' =>
      if plus_days currentDay 1 <? to then
        let nextDay := plus_days currentDay 1 in
        match calendarRows_options fuel' nextDay to with
        | Some rows => Some (nextDay :: rows)
        | None => None
        end
      else Some []
  end.

(** [let currentDay = from.minus({ day: 1 })] and the loop. *)
Definition printCalendar_days (fuel : nat) (from to : Z) : option (list Z) :=
  calendarRows fuel (plus_days from (-1)) to.

Definition printCalendar_days_options (fuel : nat) (from to : Z)
  : option (list Z) :=
  calendarRows_options fuel (plus_days from (-1)) to.

(** [printTotal]: the minutes worked between [FROM] and [TO]. *)
Definition printTotal_minutes (workPhases : list Interval) (from to : Z)
  : Js.result Js.number :=
  getWorkDuringTimeframe workPhases
    (fromDateTimes (fromISO (Some from)) (fromISO (Some to))).

End Analyse.

(* ================================================================== *)
(** ** fetch.mjs and index.mjs: [getCommitData]                         *)
(* ================================================================== *)

Module Fetch.
Import Analyse.

(** A commit as the GitHub API returns it. *)
Record GitHubCommit : Type := mkGitHubCommit
  { sha : string;
    login : string;        (* [author.login]       *)
    authorDate : Z;        (* [commit.author.date] *)
    message : string       (* [commit.message]     *) }.

(** The same object once the scripts have written their [__] fields. *)
Record Tagged : Type := mkTagged
  { api : GitHubCommit;
    isSquashMerge : bool;
    isFromPullRequest : bool;
    pullRequestId : option N }.

(** *** [findPullRequest] *)

(** [message.split('\n')[0]] *)
Fixpoint firstLineOf (s : string) : list ascii :=
  match s with
  | EmptyString => []
  | String c s' => if Ascii.eqb c "010"%char then [] else c :: firstLineOf s'
  end.

Definition isDigit (c : ascii) : bool :=
  let n := nat_of_ascii c in (48 <=? n)%nat && (n <=? 57)%nat.

(** The integer that decimal digits write, most significant first. *)
Definition decimalValue (digits : list ascii) : N :=
  fold_left (fun acc c => (acc * 10 + (N_of_ascii c - 48))%N) digits 0%N.

(** The double nearest to an integer, ties to the even significand:
    every integer below [2^53] is a double; above, the 53 leading bits
    are kept and the rest rounded. *)
Definition toDouble (n : N) : N :=
  if (n <? 9007199254740992)%N then n
  else
    let k := (N.log2 n - 52)%N in
    let q := N.shiftr n k in
    let r := N.land n (N.ones k) in
    let half := N.shiftl 1 (k - 1) in
    let q' := if (half <? r)%N || ((r =? half)%N && N.odd q)
              then (q + 1)%N else q in
    N.shiftl q' k.

(** [parseInt(digits, 10)] on a string of digits: a number, that is a
    double.  Up to twenty significant digits the result is the double
    nearest to the integer written; for more digits ECMAScript lets the
    implementation drop the digits after the twentieth, and from about
    [1.8e308] on the result is [Infinity], which has no value here: the
    properties below are those of references below [2^53]. *)
Definition parseInt (digits : list ascii) : N :=
  toDouble (decimalValue digits).

(** Progress of one attempt to match [\(\#(\d+)\)]. *)
Inductive Match : Type :=
| Idle
| Paren                          (* after "("            *)
| Hash                           (* after "(#"           *)
| Digits (ds : list ascii)       (* after "(#" and [ds]  *).

(** An opening parenthesis occurs only at the start of the pattern,
    so a failed attempt can restart at the failing character only. *)
Definition restart (c : ascii) : Match :=
  if Ascii.eqb c "("%char then Paren else Idle.

(** [[...firstLine.matchAll(/\(\#(\d+)\)/g)]]: the captured groups,
    left to right. *)
Fixpoint matchAll (st : Match) (l : list ascii) : list (list ascii) :=
  match l with
  | [] => []
  | c :: l' =>
      match st with
      | Idle => matchAll (restart c) l'
      | Paren =>
          if Ascii.eqb c "#"%char then matchAll Hash l'
          else matchAll (restart c) l'
      | Hash =>
          if isDigit c then matchAll (Digits [c]) l'
          else matchAll (restart c) l'
      | Digits ds =>
          if isDigit c then matchAll (Digits (ds ++ [c])) l'
          else if Ascii.eqb c ")"%char then ds :: matchAll Idle l'
          else matchAll (restart c) l'
      end
  end.

Definition findPullRequest (c : GitHubCommit) : option N :=
  match matchAll Idle (firstLineOf (message c)) with
  | [ds] => Some (parseInt ds)
  | _ => None
  end.

(** *** The passes of [getCommitData] *)

Definition filterPlainCommits (commits : list Tagged) : list Tagged :=
  filter (fun commit => negb (isSquashMerge commit)) commits.

(** [findAssociatedPRs]: the ids found, and the commits with their
    fields written. *)
Definition findAssociatedPRs (commits : list GitHubCommit)
  : list N * list Tagged :=
  (flat_map (fun commit => match findPullRequest commit with
                           | Some id => [id]
                           | None => []
                           end) commits,
   map (fun commit =>
          let id := findPullRequest commit in
          mkTagged commit (match id with Some _ => true | None => false end)
                   false id) commits).

Section Repository.

(** What the API answers for one repository: the commits of each
    pull request, and the statistics of each commit. *)
Variable pulls : N -> list GitHubCommit.
Variable statsOf : string -> Stats.

Definition fetchCommitsInPullRequest (id : N) : list Tagged :=
  map (fun commit => mkTagged commit false true (Some id)) (pulls id).

(** The [commits] array after the loop over [pullRequestIds]. *)
Definition allCommits (commits : list GitHubCommit) : list Tagged :=
  let (pullRequestIds, tagged) := findAssociatedPRs commits in
  tagged ++ flat_map fetchCommitsInPullRequest pullRequestIds.

(** The object returned for a commit; [__pullRequestId ? ... : null]
    turns the id [0] into [null] as well. *)
Definition output (commit : Tagged) : Commit :=
  mkCommit (login (api commit))
           (authorDate (api commit))
           (message (api commit))
           (match pullRequestId commit with
            | Some 0%N => None
            | other => other
            end)
           (sha (api commit))
           (statsOf (sha (api commit))).

Definition includes (hashes : list string) (h : string) : bool :=
  existsb (String.eqb h) hashes.

(** fetch.mjs: duplicates are dropped. *)
Record Acc : Type := mkAcc
  { plainCommits : list Tagged; hashes : list string }.

Definition dedup (acc : Acc) (commit : Tagged) : Acc :=
  if negb (includes (hashes acc) (sha (api commit))) then
    mkAcc (plainCommits acc ++ [commit])
          (hashes acc ++ [sha (api commit)])
  else acc.

Definition getCommitData (commits : list GitHubCommit) : list Commit :=
  let acc := fold_left dedup (filterPlainCommits (allCommits commits))
                       (mkAcc [] []) in
  map output (plainCommits acc).

(** index.mjs: a duplicate throws. *)
Fixpoint checkDuplicates (acc : list string) (l : list Tagged)
  : Js.result (list string) :=
  match l with
  | [] => Js.Ok acc
  | commit :: l' =>
      if includes acc (sha (api commit)) then
        Js.Throw (Js.Error "Duplicate!")
      else checkDuplicates (acc ++ [sha (api commit)]) l'
  end.

Definition getCommitData_index (commits : list GitHubCommit)
  : Js.result (list Commit) :=
  let plain := filterPlainCommits (allCommits commits) in
  _ <- checkDuplicates [] plain ;;
  Js.Ok (map output plain).

End Repository.

(** *** [truncate] *)

(** [str.length <= len ? str : `${str.slice(0, len)} ...`], [len >= 0];
    lengths count the characters of the string model. *)
Definition truncate (str : string) (len : nat) : string :=
  if (String.length str <=? len)%nat then str
  else String.append (substring 0 len str) " ...".

(** *** [requestAll] *)

Section Pagination.

Variable A : Type.

(** [response.data] for each [page] of the request. *)
Variable pageOf : nat -> list A.

(** The loop [while (true)] from [page] on, with the items pushed so
    far in [result]; [None] when [fuel] requests do not reach the
    [break]. *)
Fixpoint requestAll_from (fuel : nat) (page : nat) (result : list A)
  : option (list A) :=
  match fuel with
  | O => None
  | S fuel' =>
      match pageOf page with
      | [] => Some result
      | item :: items =>
          requestAll_from fuel' (page + 1) (result ++ item :: items)
      end
  end.

Definition requestAll (fuel : nat) : option (list A) :=
  requestAll_from fuel 1 [].

End Pagination.

(** *** [getIssueData] *)

(** An issue event as the GitHub API returns it; [created_at] is the
    text of the timestamp, and [actor] is taken to be an object. *)
Record IssueEvent : Type := mkIssueEvent
  { created_at : string;
    actor_login : string;     (* [actor.login]  *)
    event : string;
    issue_number : N          (* [issue.number] *) }.

(** The object returned for an event: [{ author, date, eventType,
    issueId }], the date still the text of the API. *)
Record IssueEntry : Type := mkIssueEntry
  { entry_author : string;
    entry_date : string;
    entry_eventType : string;
    entry_issueId : N }.

Section Issues.

(** [options.from] is the text given on the command line (by default
    ['2021-09-01T00:00:00']); it is compared with [created_at] as a
    string. *)
Variable options_from : string.
Variable options_author : string.

Definition getIssueData (events : list IssueEvent) : list IssueEntry :=
  map (fun ev => mkIssueEntry (actor_login ev) (created_at ev) (event ev)
                              (issue_number ev))
      (filter (fun ev => Js.ge_string (created_at ev) options_from
                         && String.eqb (actor_login ev) options_author)
              events).

End Issues.

End Fetch.

(* ================================================================== *)
(** ** Vocabulary of the properties                                     *)
(* ================================================================== *)

Module Spec.
Import Luxon Analyse.

Definition minutes (m : Z) : Z := m * MS_PER_MINUTE.

(** Timelines in ascending order of their dates. *)
Definition ascending (timeline : list Event) : Prop :=
  StronglySorted (fun a b => date a <= date b) timeline.

(** The consecutive pairs [(timeline[i], timeline[i + 1])]. *)
Definition pairs (timeline : list Event) : list (Event * Event) :=
  combine timeline (tl timeline).

(** The gap of a pair exceeds the threshold, in milliseconds. *)
Definition exceeds (threshold : Z) (p : Event * Event) : bool :=
  minutes threshold <? date (snd p) - date (fst p).

(** The loop of [calculateWorkPhases] as a recursion on the timeline. *)
Fixpoint walk (threshold : Z) (timeline : list Event) (w : Walk) : Walk :=
  match timeline with
  | [] => w
  | a :: rest =>
      match rest with
      | [] => w
      | b :: _ => walk threshold rest (step threshold a b w)
      end
  end.

(** A well-defined work phase: a valid interval with [start <= end]. *)
Definition validPhase (i : Interval) : Prop :=
  match i with
  | Between s e => s <= e
  | InvalidInterval _ => False
  end.

(** [i] is listed before [j]: it starts no later and the two do not
    overlap. *)
Definition precedes (i j : Interval) : Prop :=
  match i, j with
  | Between s1 _, Between s2 _ => s1 <= s2 /\ overlaps i j = false
  | _, _ => False
  end.

Definition validPhaseList (l : list Interval) : Prop :=
  Forall validPhase l /\ StronglySorted precedes l.

(** The last two events of the timeline are within the threshold. *)
Definition endsWithin (threshold : Z) (timeline : list Event) : Prop :=
  exists l a b, timeline = l ++ [a; b]
                /\ date b - date a <= minutes threshold.

(** The duration of a valid interval, as [toDuration] gives it. *)
Definition duration (i : Interval) : Q :=
  match i with
  | Between s e => diff_minutes e s
  | InvalidInterval _ => 0%Q
  end.

(** A phase that is over before the instant [x]. *)
Definition endsBefore (x : Z) (i : Interval) : Prop :=
  match i with
  | Between _ e => e < x
  | InvalidInterval _ => False
  end.

(** [timeframe.engulfs(phase)] *)
Definition engulfs (timeframe phase : Interval) : Prop :=
  match timeframe, phase with
  | Between s1 e1, Between s2 e2 => s1 <= s2 /\ e2 <= e1
  | _, _ => False
  end.

(** The sum of the durations of the phases, added in list order. *)
Definition totalDuration (l : list Interval) : Q :=
  fold_left Qplus (map duration l) 0%Q.

(** A valid interval that lasts longer than an instant. *)
Definition lasting (i : Interval) : Prop :=
  match i with
  | Between s e => s < e
  | InvalidInterval _ => False
  end.

(** The events dated [t]. *)
Definition dated (t : Z) (l : list Event) : list Event :=
  filter (fun e => date e =? t) l.

(** The hashes of a list of fetched commits. *)
Definition shas (l : list Fetch.Tagged) : list string :=
  map (fun c => Fetch.sha (Fetch.api c)) l.

(** An event at instant [t], for the examples. *)
Definition eventAt (t : Z) : Event :=
  mkEvent "issue" t (OfIssue (mkIssue "adzialocha" t "closed" 1)).

(** Events at 09:00, 09:30, 13:00 and 13:20 of the first day. *)
Definition workday : list Event :=
  [eventAt (minutes 540); eventAt (minutes 570);
   eventAt (minutes 780); eventAt (minutes 800)].

(** A repository with the squash merge of pull request 5 on its
    main branch; one commit of the pull request is also a commit of
    the main branch. *)
Definition mainCommits : list Fetch.GitHubCommit :=
  [Fetch.mkGitHubCommit "c3" "adzialocha" (minutes 30) "Add analysis (#5)";
   Fetch.mkGitHubCommit "c1" "adzialocha" (minutes 10) "Initial commit"].

Definition pullCommits (id : N) : list Fetch.GitHubCommit :=
  if (id =? 5)%N then
    [Fetch.mkGitHubCommit "c1" "adzialocha" (minutes 10) "Initial commit";
     Fetch.mkGitHubCommit "c2" "adzialocha" (minutes 20) "Walk the timeline"]
  else [].

Definition noStats (_ : string) : Stats := mkStats 0 0 0 0.

(** What [fromDateTimes] can return: invalid, or valid with
    [start <= end]. *)
Definition wellFormed (i : Interval) : Prop :=
  match i with
  | Between s e => s <= e
  | InvalidInterval _ => True
  end.

Definition isValid (i : Interval) : bool :=
  match i with
  | Between _ _ => true
  | InvalidInterval _ => false
  end.

(** The intersection of two valid intervals as a pure function. *)
Definition meet (timeframe phase : Interval) : option Interval :=
  match timeframe, phase with
  | Between ts te, Between s e =>
      if Z.min e te <=? Z.max s ts then None
      else Some (Between (Z.max s ts) (Z.min e te))
  | _, _ => None
  end.

(** The milliseconds a phase shares with a timeframe. *)
Definition overlapMs (timeframe phase : Interval) : Z :=
  match timeframe, phase with
  | Between ts te, Between s e => Z.max 0 (Z.min e te - Z.max s ts)
  | _, _ => 0
  end.

Definition sharedMs (timeframe : Interval) (l : list Interval) : Z :=
  fold_right (fun p acc => overlapMs timeframe p + acc) 0 l.

(** A phase that has no instant in common with the inside of the
    timeframe; an invalid interval is apart from everything. *)
Definition apart (timeframe phase : Interval) : Prop :=
  match timeframe, phase with
  | Between ts te, Between s e => e <= ts \/ te <= s
  | _, _ => True
  end.

(** [p] is a one-instant phase strictly inside the timeframe. *)
Definition instantInside (timeframe p : Interval) : Prop :=
  match timeframe, p with
  | Between ts te, Between s e => s = e /\ ts < s < te
  | _, _ => False
  end.

(** The length in milliseconds of an element of that array ([null]
    and invalid intervals have none), and the total over the array. *)
Definition lengthMs (o : option Interval) : Z :=
  match o with
  | Some (Between s e) => e - s
  | _ => 0
  end.

Definition totalMs (l : list (option Interval)) : Z :=
  fold_right (fun o acc => lengthMs o + acc) 0 l.

(** [n] consecutive days, the first one [first]. *)
Definition rowsFrom (first : Z) (n : nat) : list Z :=
  map (fun k => first + Z.of_nat k * MS_PER_DAY) (seq 0 n).

(** The number of the cell of the row of [currentDay] that the instant
    [t] falls into. *)
Definition cellOf (currentDay t : Z) : nat :=
  Z.to_nat ((t - currentDay) / minutes DURATION).

(** The instant [t] lies in one of the closed phases, at least the
    padding before its end. *)
Definition inClosed (closed : list Phase) (t : Z) : Prop :=
  exists p e, In p closed /\ to p = Some e
              /\ from p <= t /\ t + minutes PADDING <= e.

(** [q] starts more than the threshold less the padding after the end
    of [p]. *)
Definition followsAfter (threshold : Z) (p q : Phase) : Prop :=
  exists e, to p = Some e /\ e + minutes (threshold - PADDING) < from q.

(** A closed phase: it has an end, at least the padding after its
    start. *)
Definition padded (p : Phase) : Prop :=
  exists e, to p = Some e /\ from p + minutes PADDING <= e.

(** The characters of a reference to a pull request, [(#digits)]. *)
Definition reference (digits : list ascii) : list ascii :=
  "("%char :: "#"%char :: digits ++ [")"%char].

Definition noParen (l : list ascii) : Prop :=
  Forall (fun c => c <> "("%char) l.

Definition allDigits (l : list ascii) : Prop :=
  Forall (fun c => Fetch.isDigit c = true) l.

(** The commits that [getCommitData] keeps, before they are turned into
    the objects written out. *)
Definition kept (pulls : N -> list Fetch.GitHubCommit)
           (commits : list Fetch.GitHubCommit) : list Fetch.Tagged :=
  Fetch.plainCommits
    (fold_left Fetch.dedup
               (Fetch.filterPlainCommits (Fetch.allCommits pulls commits))
               (Fetch.mkAcc [] [])).

End Spec.

(* ================================================================== *)
(** ** Properties of [calculateWorkPhases]                              *)
(* ================================================================== *)

Import Luxon Analyse Spec.

Lemma gt_spec (later earlier threshold : Z) :
  gt (diff_minutes later earlier) threshold = true
  <-> minutes threshold < later - earlier.
Proof.
  unfold gt, diff_minutes, Qle_bool, minutes, MS_PER_MINUTE; simpl.
  rewrite negb_true_iff, Z.leb_gt. lia.
Qed.

Lemma gt_exceeds (threshold : Z) (a b : Event) :
  gt (diff_minutes (date b) (date a)) threshold = exceeds threshold (a, b).
Proof.
  unfold exceeds; simpl.
  destruct (minutes threshold <? date b - date a) eqn:E.
  - apply gt_spec. now apply Z.ltb_lt.
  - apply not_true_is_false. intro H. apply gt_spec in H.
    apply Z.ltb_ge in E. lia.
Qed.

Lemma step_break (threshold : Z) (a b : Event) (w : Walk) :
  minutes threshold < date b - date a ->
  step threshold a b w
  = mkWalk (phases w ++ [mkPhase (phaseFrom w)
                                 (Some (date a + minutes PADDING))])
           (date b) (phaseTo w).
Proof.
  intro H. unfold step. rewrite (proj2 (gt_spec _ _ _) H). reflexivity.
Qed.

Lemma step_extend (threshold : Z) (a b : Event) (w : Walk) :
  date b - date a <= minutes threshold ->
  step threshold a b w = mkWalk (phases w) (phaseFrom w) (Some (date b)).
Proof.
  intro H. unfold step.
  destruct (gt (diff_minutes (date b) (date a)) threshold) eqn:E;
    [apply gt_spec in E; lia | reflexivity].
Qed.

(** The loop never reads outside the array: it is the recursion [walk]. *)
Lemma loop_is_walk (threshold : Z) (timeline pre : list Event) (w : Walk) :
  Js.for_each (seq (List.length pre) (List.length timeline - 1))
              (loopBody threshold (pre ++ timeline)) w
  = Js.Ok (walk threshold timeline w).
Proof.
  revert pre w.
  induction timeline as [|a rest IH]; intros pre w; [reflexivity|].
  destruct rest as [|b rest']; [reflexivity|].
  replace (List.length (a :: b :: rest') - 1)%nat
    with (S (List.length (b :: rest') - 1)) by (cbn [List.length]; lia).
  cbn [seq Js.for_each walk].
  unfold loopBody at 1, Js.index.
  rewrite nth_error_app2 by lia. rewrite Nat.sub_diag. cbn [nth_error Js.bind].
  rewrite nth_error_app2 by lia.
  replace (List.length pre + 1 - List.length pre)%nat with 1%nat by lia.
  cbn [nth_error Js.bind].
  specialize (IH (pre ++ [a]) (step threshold a b w)).
  rewrite <- app_assoc, length_app in IH. cbn [List.length app] in IH.
  rewrite Nat.add_1_r in IH. exact IH.
Qed.

Lemma rawPhases_cons (threshold : Z) (first : Event) (rest : list Event) :
  rawPhases threshold (first :: rest)
  = let w := walk threshold (first :: rest) (mkWalk [] (date first) None) in
    Js.Ok (phases w ++ [mkPhase (phaseFrom w) (phaseTo w)]).
Proof.
  unfold rawPhases. cbn [Js.index nth_error Js.bind].
  rewrite (loop_is_walk threshold (first :: rest) []). reflexivity.
Qed.

Lemma calculateWorkPhases_cons (threshold : Z) (first : Event)
      (rest : list Event) :
  calculateWorkPhases threshold (first :: rest)
  = let w := walk threshold (first :: rest) (mkWalk [] (date first) None) in
    Js.Ok (map toInterval (phases w ++ [mkPhase (phaseFrom w) (phaseTo w)])).
Proof.
  unfold calculateWorkPhases. rewrite rawPhases_cons. reflexivity.
Qed.

Lemma walk_snoc (threshold : Z) (l : list Event) (a b : Event) (w : Walk) :
  walk threshold (l ++ [a; b]) w
  = step threshold a b (walk threshold (l ++ [a]) w).
Proof.
  revert w. induction l as [|x l IH]; intro w; [reflexivity|].
  destruct l as [|y l]; [reflexivity|].
  change (walk threshold ((x :: y :: l) ++ [a; b]) w)
    with (walk threshold ((y :: l) ++ [a; b]) (step threshold x y w)).
  rewrite IH. reflexivity.
Qed.

Lemma for_each_app {S} (l1 l2 : list nat) (body : nat -> S -> Js.result S)
      (st : S) :
  Js.for_each (l1 ++ l2) body st
  = Js.bind (Js.for_each l1 body st) (Js.for_each l2 body).
Proof.
  revert st. induction l1 as [|i l1 IH]; intro st; [reflexivity|].
  cbn [app Js.for_each]. destruct (body i st); cbn [Js.bind]; auto.
Qed.

Lemma loopBody_in_range (threshold : Z) (timeline : list Event) (i : nat)
      (a b : Event) (w : Walk) :
  nth_error timeline i = Some a ->
  nth_error timeline (S i) = Some b ->
  loopBody threshold timeline i w = Js.Ok (step threshold a b w).
Proof.
  intros Ha Hb. unfold loopBody, Js.index.
  rewrite Nat.add_1_r, Ha, Hb. reflexivity.
Qed.

(** The first [i] iterations complete as long as [i] is an index. *)
Lemma loop_prefix_ok (threshold : Z) (timeline : list Event) (w0 : Walk)
      (i : nat) :
  (i < List.length timeline)%nat ->
  exists w, Js.for_each (seq 0 i) (loopBody threshold timeline) w0 = Js.Ok w.
Proof.
  induction i as [|i IH]; intro Hi; [now exists w0|].
  destruct IH as [w Hw]; [lia|].
  destruct (nth_error timeline i) as [a|] eqn:Ha;
    [|apply nth_error_None in Ha; lia].
  destruct (nth_error timeline (S i)) as [b|] eqn:Hb;
    [|apply nth_error_None in Hb; lia].
  exists (step threshold a b w).
  rewrite seq_S, for_each_app, Hw. cbn [Js.bind Js.for_each Nat.add].
  rewrite (loopBody_in_range threshold timeline i a b w Ha Hb). reflexivity.
Qed.

Lemma toInterval_closed (s e : Z) :
  s <= e -> toInterval (mkPhase s (Some e)) = Between s e.
Proof.
  intro H. unfold toInterval; cbn.
  destruct (e <? s) eqn:E; [apply Z.ltb_lt in E; lia | reflexivity].
Qed.


Lemma last_default {A} (l : list A) (d d' : A) :
  l <> [] -> last l d = last l d'.
Proof.
  induction l as [|b l IH]; intro H; [contradiction|].
  destruct l as [|c l]; [reflexivity|].
  change (last (b :: c :: l) d) with (last (c :: l) d).
  change (last (b :: c :: l) d') with (last (c :: l) d').
  apply IH. discriminate.
Qed.

Lemma last_cons {A} (l : list A) (a d : A) : last (a :: l) d = last l a.
Proof.
  destruct l as [|b l]; [reflexivity|].
  change (last (a :: b :: l) d) with (last (b :: l) d).
  now apply last_default.
Qed.

Lemma walk_length (threshold : Z) (timeline : list Event) (w : Walk) :
  List.length (phases (walk threshold timeline w))
  = (List.length (phases w)
     + List.length (filter (exceeds threshold) (pairs timeline)))%nat.
Proof.
  revert w. induction timeline as [|a rest IH]; intro w; [cbn; lia|].
  destruct rest as [|b rest]; [cbn; lia|].
  change (walk threshold (a :: b :: rest) w)
    with (walk threshold (b :: rest) (step threshold a b w)).
  rewrite IH.
  change (pairs (a :: b :: rest)) with ((a, b) :: pairs (b :: rest)).
  cbn [filter]. unfold step. rewrite gt_exceeds.
  destruct (exceeds threshold (a, b)); cbn [phases List.length].
  - rewrite length_app. cbn [List.length]. lia.
  - lia.
Qed.



(** Without a gap above the threshold nothing is emitted and the last
    date read becomes the provisional end. *)
Lemma walk_within (threshold : Z) (rest : list Event) (a : Event) (w : Walk) :
  rest <> [] ->
  Forall (fun p => exceeds threshold p = false) (pairs (a :: rest)) ->
  walk threshold (a :: rest) w
  = mkWalk (phases w) (phaseFrom w) (Some (date (last rest a))).
Proof.
  revert a w. induction rest as [|b rest IH]; intros a w Hne H; [contradiction|].
  change (walk threshold (a :: b :: rest) w)
    with (walk threshold (b :: rest) (step threshold a b w)).
  change (pairs (a :: b :: rest)) with ((a, b) :: pairs (b :: rest)) in H.
  inversion H as [|? ? Hab Hrest]; subst.
  unfold exceeds in Hab; cbn [fst snd] in Hab; apply Z.ltb_ge in Hab.
  rewrite step_extend by exact Hab.
  destruct rest as [|c rest]; [reflexivity|].
  rewrite IH by (discriminate || exact Hrest).
  cbn [phases phaseFrom].
  rewrite (last_cons (c :: rest) b a). reflexivity.
Qed.

Lemma StronglySorted_snoc {A} (R : A -> A -> Prop) (l : list A) (y : A) :
  StronglySorted R l -> Forall (fun x => R x y) l ->
  StronglySorted R (l ++ [y]).
Proof.
  induction 1 as [|x l Hl IH Hx]; intro Hy; cbn [app].
  - repeat constructor.
  - inversion Hy; subst. constructor; [now apply IH|].
    apply Forall_app. split; [exact Hx|]. now constructor.
Qed.

Lemma precedes_later (i : Interval) (s e : Z) :
  validPhase i -> endsBefore s i -> precedes i (Between s e).
Proof.
  destruct i as [s1 e1|]; cbn; [|contradiction].
  intros Hv Hb. split; [lia|].
  apply andb_false_iff. left. apply Z.ltb_ge. lia.
Qed.

Lemma validPhaseList_snoc (l : list Interval) (s e : Z) :
  validPhaseList l -> Forall (endsBefore s) l -> s <= e ->
  validPhaseList (l ++ [Between s e]).
Proof.
  intros [Hv Hs] Hb Hse. split.
  - apply Forall_app. split; [exact Hv|]. now repeat constructor.
  - apply StronglySorted_snoc; [exact Hs|].
    rewrite Forall_forall in *. intros i Hi.
    apply precedes_later; auto.
Qed.

(** While the walk reads an ascending timeline, the phases emitted so
    far are well formed, in order, and over before the open phase
    starts; the open phase starts no later than the event being read. *)
Lemma walk_invariant (threshold : Z) (rest : list Event) (a : Event)
      (w : Walk) :
  PADDING <= threshold ->
  ascending (a :: rest) ->
  validPhaseList (map toInterval (phases w)) ->
  Forall (endsBefore (phaseFrom w)) (map toInterval (phases w)) ->
  phaseFrom w <= date a ->
  let w' := walk threshold (a :: rest) w in
  validPhaseList (map toInterval (phases w'))
  /\ Forall (endsBefore (phaseFrom w')) (map toInterval (phases w'))
  /\ phaseFrom w' <= date (last rest a).
Proof.
  intros HT. revert a w.
  induction rest as [|b rest IH]; intros a w Hasc Hv Hb Hf; [now cbn|].
  change (walk threshold (a :: b :: rest) w)
    with (walk threshold (b :: rest) (step threshold a b w)).
  cbv zeta. rewrite last_cons.
  inversion Hasc as [|? ? Hasc' Hab]; subst.
  assert (Hle : date a <= date b) by (inversion Hab; assumption).
  destruct (Z.lt_ge_cases (minutes threshold) (date b - date a)) as [Hgap|Hgap].
  - rewrite step_break by exact Hgap.
    assert (Hpad : minutes PADDING <= minutes threshold)
      by (unfold minutes, MS_PER_MINUTE; lia).
    assert (H0 : 0 <= minutes PADDING) by (now cbv).
    apply IH; cbn [phases phaseFrom]; [exact Hasc'| | |lia];
      rewrite map_app; cbn [map]; rewrite toInterval_closed by lia.
    + apply validPhaseList_snoc; [exact Hv|exact Hb|lia].
    + apply Forall_app. split.
      * eapply Forall_impl; [|exact Hb].
        intros [s e|]; cbn; [lia|auto].
      * constructor; [|constructor]. unfold endsBefore. lia.
  - rewrite step_extend by exact Hgap.
    apply IH; cbn [phases phaseFrom]; [exact Hasc'|exact Hv|exact Hb|lia].
Qed.

Lemma walk_endsWithin (threshold : Z) (l : list Event) (a b : Event)
      (w : Walk) :
  date b - date a <= minutes threshold ->
  walk threshold (l ++ [a; b]) w
  = mkWalk (phases (walk threshold (l ++ [a]) w))
           (phaseFrom (walk threshold (l ++ [a]) w))
           (Some (date b)).
Proof.
  intro H. rewrite walk_snoc. now apply step_extend.
Qed.

Lemma walk_phases_snoc (threshold : Z) (l : list Event) (a b : Event)
      (w : Walk) :
  date b - date a <= minutes threshold ->
  phases (walk threshold (l ++ [a; b]) w)
  = phases (walk threshold (l ++ [a]) w).
Proof. intro H. now rewrite walk_endsWithin. Qed.

Lemma Forall_last {A} (P : A -> Prop) (l : list A) (d : A) :
  Forall P l -> P d -> P (last l d).
Proof.
  induction 1 as [|x l Hx Hl IH]; intro Hd; [exact Hd|].
  destruct l; [exact Hx|]. now apply IH.
Qed.

Lemma ascending_last (a : Event) (rest : list Event) :
  ascending (a :: rest) -> date a <= date (last rest a).
Proof.
  intro H. inversion H as [|? ? _ Hall]; subst.
  apply Forall_last with (P := fun e => date a <= date e); [exact Hall|lia].
Qed.

(** C1 (as amended).  On a non-empty ascending timeline and with a
    threshold of at least the five minutes of padding, the phases before
    the final one are well formed ([start <= end]), sorted ascending by
    start and pairwise non-overlapping; when the last two events lie
    within the threshold of each other, the whole phase list is. *)
Theorem phases_sorted_disjoint (threshold : Z) (timeline : list Event) :
  PADDING <= threshold ->
  timeline <> [] ->
  ascending timeline ->
  exists closed final,
    calculateWorkPhases threshold timeline = Js.Ok (closed ++ [final])
    /\ validPhaseList closed
    /\ (endsWithin threshold timeline -> validPhaseList (closed ++ [final])).
Proof.
  intros HT Hne Hasc. destruct timeline as [|first rest]; [contradiction|].
  rewrite calculateWorkPhases_cons. cbv zeta.
  set (w0 := mkWalk [] (date first) None).
  destruct (walk_invariant threshold rest first w0 HT Hasc)
    as (Hv & Hb & Hf);
    [split; constructor | constructor | cbn; lia |].
  rewrite map_app. cbn [map].
  eexists _, _. split; [reflexivity|]. split; [exact Hv|].
  intros (l & a & b & Heq & Hgap).
  assert (Hlast : last rest first = b).
  { rewrite <- (last_cons rest first first), Heq.
    change (l ++ [a; b]) with (l ++ [a] ++ [b]).
    rewrite app_assoc. apply last_last. }
  rewrite Hlast in Hf. rewrite Heq in *.
  rewrite walk_endsWithin in * by exact Hgap. cbn [phases phaseFrom phaseTo] in *.
  rewrite toInterval_closed by exact Hf.
  now apply validPhaseList_snoc.
Qed.

(** C3 (as amended).  When all consecutive gaps of an ascending timeline
    of at least two events are within the threshold, there is exactly one
    phase; it runs from the first event to the last event, with no
    padding added to its end. *)
Theorem within_threshold_single_phase (threshold : Z) (first : Event)
        (rest : list Event) :
  rest <> [] ->
  ascending (first :: rest) ->
  Forall (fun p => date (snd p) - date (fst p) <= minutes threshold)
         (pairs (first :: rest)) ->
  calculateWorkPhases threshold (first :: rest)
  = Js.Ok [Between (date first) (date (last rest first))].
Proof.
  intros Hne Hasc Hgaps. rewrite calculateWorkPhases_cons. cbv zeta.
  rewrite walk_within; [|exact Hne|].
  - cbn [phases phaseFrom phaseTo app map].
    rewrite toInterval_closed by now apply ascending_last.
    reflexivity.
  - eapply Forall_impl; [|exact Hgaps].
    intros p Hp. unfold exceeds. now apply Z.ltb_ge.
Qed.

(** C4.  In iteration [i] of the walk, with [a = timeline[i]] and
    [b = timeline[i + 1]]: a gap above the threshold emits the current
    phase with end [a.date + 5 minutes] and opens a phase at [b.date];
    a gap up to the threshold (equality included) emits nothing, keeps
    the start of the current phase and sets its provisional end to
    [b.date]. *)
Theorem pairwise_walk_step (threshold : Z) (timeline : list Event)
        (w0 : Walk) (i : nat) (a b : Event) :
  nth_error timeline i = Some a ->
  nth_error timeline (S i) = Some b ->
  exists w,
    Js.for_each (seq 0 i) (loopBody threshold timeline) w0 = Js.Ok w
    /\ (minutes threshold < date b - date a ->
        Js.for_each (seq 0 (S i)) (loopBody threshold timeline) w0
        = Js.Ok (mkWalk
                   (phases w ++ [mkPhase (phaseFrom w)
                                         (Some (date a + minutes 5))])
                   (date b)
                   (phaseTo w)))
    /\ (date b - date a <= minutes threshold ->
        Js.for_each (seq 0 (S i)) (loopBody threshold timeline) w0
        = Js.Ok (mkWalk (phases w) (phaseFrom w) (Some (date b)))).
Proof.
  intros Ha Hb.
  destruct (loop_prefix_ok threshold timeline w0 i) as [w Hw].
  { apply nth_error_Some. congruence. }
  exists w. split; [exact Hw|].
  rewrite seq_S, for_each_app, Hw. cbn [Js.bind Js.for_each Nat.add].
  rewrite (loopBody_in_range threshold timeline i a b w Ha Hb).
  split; intro Hgap;
    [rewrite step_break by exact Hgap | rewrite step_extend by exact Hgap];
    reflexivity.
Qed.

(** C2 (the code at the empty timeline).  [timeline[0].date] throws, so
    segmentation does not return the empty phase list; the aggregator
    does return zero on an empty phase list. *)
Theorem empty_timeline (threshold : Z) :
  calculateWorkPhases threshold [] = Js.Throw Js.TypeError
  /\ forall timeframe,
       getWorkDuringTimeframe [] timeframe = Js.Ok (Js.Num 0).
Proof. split; reflexivity. Qed.

(** C5 (the code at a one-event timeline).  The loop does not run,
    [phaseTo] is still [undefined], and the only phase is the invalid
    interval without an end. *)
Theorem single_event_timeline (threshold : Z) (e : Event) :
  calculateWorkPhases threshold [e] = Js.Ok [InvalidInterval MissingEnd].
Proof. reflexivity. Qed.

(** C6 (as amended).  With threshold 0 and three events ten minutes
    apart there are three phases, one opened at each event; the first
    two end five minutes after their start. *)
Theorem zero_threshold_three_events (e1 e2 e3 : Event) :
  date e2 = date e1 + minutes 10 ->
  date e3 = date e2 + minutes 10 ->
  exists to3,
    rawPhases 0 [e1; e2; e3]
    = Js.Ok [mkPhase (date e1) (Some (date e1 + minutes 5));
             mkPhase (date e2) (Some (date e2 + minutes 5));
             mkPhase (date e3) to3]
    /\ calculateWorkPhases 0 [e1; e2; e3]
       = Js.Ok [Between (date e1) (date e1 + minutes 5);
                Between (date e2) (date e2 + minutes 5);
                toInterval (mkPhase (date e3) to3)].
Proof.
  intros H2 H3. exists None.
  assert (G1 : minutes 0 < date e2 - date e1)
    by (rewrite H2; unfold minutes, MS_PER_MINUTE; lia).
  assert (G2 : minutes 0 < date e3 - date e2)
    by (rewrite H3; unfold minutes, MS_PER_MINUTE; lia).
  unfold calculateWorkPhases. rewrite rawPhases_cons. cbn [walk].
  rewrite (step_break _ _ _ _ G1), (step_break _ _ _ _ G2).
  cbn [phases phaseFrom phaseTo app Js.bind map]. split; [reflexivity|].
  rewrite !toInterval_closed by (unfold minutes, MS_PER_MINUTE, PADDING; lia).
  reflexivity.
Qed.


(** *** The statements at concrete timelines *)

Lemma phases_sorted_disjoint_witness :
  calculateWorkPhases 120 workday
  = Js.Ok ([Between (minutes 540) (minutes 575)]
           ++ [Between (minutes 780) (minutes 800)])
  /\ validPhaseList [Between (minutes 540) (minutes 575)]
  /\ endsWithin 120 workday
  /\ validPhaseList ([Between (minutes 540) (minutes 575)]
                     ++ [Between (minutes 780) (minutes 800)]).
Proof.
  assert (Hends : endsWithin 120 workday).
  { exists [eventAt (minutes 540); eventAt (minutes 570)],
           (eventAt (minutes 780)), (eventAt (minutes 800)).
    split; [reflexivity|cbn; lia]. }
  destruct (phases_sorted_disjoint 120 workday)
    as (closed & final & Heq & Hclosed & Hall);
    [unfold PADDING; lia | discriminate | repeat constructor; cbn; lia |].
  assert (E : calculateWorkPhases 120 workday
              = Js.Ok ([Between (minutes 540) (minutes 575)]
                       ++ [Between (minutes 780) (minutes 800)]))
    by reflexivity.
  rewrite E in Heq.
  assert (Heq' : [Between (minutes 540) (minutes 575)]
                 ++ [Between (minutes 780) (minutes 800)]
                 = closed ++ [final]) by congruence.
  apply app_inj_tail in Heq'. destruct Heq' as [<- <-].
  split; [exact E|]. split; [exact Hclosed|].
  split; [exact Hends|exact (Hall Hends)].
Defined.

(** With a threshold below the padding a closed phase runs into the one
    that follows it. *)
Lemma phases_overlap_below_padding :
  exists ivs,
    calculateWorkPhases 1 [eventAt 0; eventAt (minutes 2); eventAt (minutes 3)]
    = Js.Ok ivs
    /\ ~ validPhaseList ivs.
Proof.
  eexists. split; [vm_compute; reflexivity|].
  unfold validPhaseList. intros [_ H]. inversion H as [|? ? _ Hall]; subst.
  inversion Hall as [|? ? Hp _]; subst. cbn in Hp. destruct Hp as [_ Hov].
  discriminate.
Qed.

Lemma within_threshold_single_phase_witness :
  calculateWorkPhases 240 [eventAt 0; eventAt (minutes 10)]
  = Js.Ok [Between 0 (minutes 10)].
Proof.
  apply (within_threshold_single_phase 240 (eventAt 0) [eventAt (minutes 10)]);
    [discriminate | repeat constructor; cbn; lia
     | repeat constructor; cbn; lia].
Defined.

(** The single phase ends at the last event, not five minutes later. *)
Lemma final_phase_not_padded :
  ~ exists s,
      calculateWorkPhases 240 [eventAt 0; eventAt (minutes 10)]
      = Js.Ok [Between s (minutes 10 + minutes 5)].
Proof. intros [s H]. vm_compute in H. congruence. Qed.

Lemma pairwise_walk_step_witness :
  exists w,
    Js.for_each (seq 0 1) (loopBody 120 workday) (mkWalk [] (minutes 540) None)
    = Js.Ok w
    /\ (minutes 120 < minutes 780 - minutes 570 ->
        Js.for_each (seq 0 2) (loopBody 120 workday)
                    (mkWalk [] (minutes 540) None)
        = Js.Ok (mkWalk
                   (phases w ++ [mkPhase (phaseFrom w)
                                         (Some (minutes 570 + minutes 5))])
                   (minutes 780)
                   (phaseTo w)))
    /\ (minutes 780 - minutes 570 <= minutes 120 ->
        Js.for_each (seq 0 2) (loopBody 120 workday)
                    (mkWalk [] (minutes 540) None)
        = Js.Ok (mkWalk (phases w) (phaseFrom w) (Some (minutes 780)))).
Proof.
  apply (pairwise_walk_step 120 workday (mkWalk [] (minutes 540) None) 1
                            (eventAt (minutes 570)) (eventAt (minutes 780)));
    reflexivity.
Defined.

Lemma zero_threshold_three_events_witness :
  exists to3,
    rawPhases 0 [eventAt 0; eventAt (minutes 10); eventAt (minutes 20)]
    = Js.Ok [mkPhase 0 (Some (0 + minutes 5));
             mkPhase (minutes 10) (Some (minutes 10 + minutes 5));
             mkPhase (minutes 20) to3]
    /\ calculateWorkPhases 0
         [eventAt 0; eventAt (minutes 10); eventAt (minutes 20)]
       = Js.Ok [Between 0 (0 + minutes 5);
                Between (minutes 10) (minutes 10 + minutes 5);
                toInterval (mkPhase (minutes 20) to3)].
Proof.
  apply (zero_threshold_three_events
           (eventAt 0) (eventAt (minutes 10)) (eventAt (minutes 20)));
    reflexivity.
Defined.

(** The three phases are not instants: the first lasts five minutes. *)
Lemma zero_threshold_not_instants :
  ~ exists ivs,
      calculateWorkPhases 0
        [eventAt 0; eventAt (minutes 10); eventAt (minutes 20)]
      = Js.Ok ivs
      /\ Forall (fun i => exists t, i = Between t t) ivs.
Proof.
  intros (ivs & H & Hall). vm_compute in H. injection H as <-.
  inversion Hall as [|? ? [t Ht] _]; subst. congruence.
Qed.


(* ================================================================== *)
(** ** Properties of [getWorkDuringTimeframe]                           *)
(* ================================================================== *)

Lemma map_array_ok {A B} (f : A -> Js.result B) (g : A -> B) (l : list A) :
  (forall a, In a l -> f a = Js.Ok (g a)) ->
  Js.map_array f l = Js.Ok (map g l).
Proof.
  induction l as [|a l IH]; intro H; [reflexivity|].
  cbn [Js.map_array map]. rewrite (H a) by now left.
  cbn [Js.bind]. rewrite IH by (intros; apply H; now right). reflexivity.
Qed.

Lemma map_array_inv {A B} (f : A -> Js.result B) (l : list A) (r : list B) :
  Js.map_array f l = Js.Ok r ->
  forall b, In b r -> exists a, In a l /\ f a = Js.Ok b.
Proof.
  revert r. induction l as [|a l IH]; intros r H b Hb; cbn in H.
  - injection H as <-. contradiction.
  - destruct (f a) as [b0|] eqn:Ea; [|discriminate]. cbn in H.
    destruct (Js.map_array f l) as [bs|] eqn:El; [|discriminate]. cbn in H.
    injection H as <-. destruct Hb as [<-|Hb].
    + exists a. split; [now left|exact Ea].
    + destruct (IH bs eq_refl b Hb) as (a' & Hin & Ha').
      exists a'. split; [now right|exact Ha'].
Qed.

Lemma sumMinutes_Some (l : list Interval) (q : Q) :
  Forall lasting l ->
  sumMinutes (Js.Num q) (map Some l)
  = Js.Ok (Js.Num (fold_left Qplus (map duration l) q)).
Proof.
  revert q. induction l as [|i l IH]; intros q H; [reflexivity|].
  inversion H as [|? ? Hi Hl]; subst.
  destruct i as [s e|]; [|contradiction].
  cbn [map sumMinutes toDuration_minutes Js.add fold_left duration].
  now apply IH.
Qed.

Lemma engulfed_kept (timeframe i : Interval) :
  lasting i -> engulfs timeframe i ->
  overlaps timeframe i = true
  /\ intersection timeframe i = Js.Ok (Some i).
Proof.
  destruct timeframe as [s1 e1|], i as [s2 e2|]; cbn; try contradiction.
  intros Hlt [Hs He]. split.
  - apply andb_true_iff. split; apply Z.ltb_lt; lia.
  - destruct (s2 <? s1) eqn:E1; [apply Z.ltb_lt in E1; lia|].
    destruct (e1 <? e2) eqn:E2; [apply Z.ltb_lt in E2; lia|].
    destruct (e2 <=? s2) eqn:E3; [apply Z.leb_le in E3; lia|].
    destruct (e2 <? s2) eqn:E4; [apply Z.ltb_lt in E4; lia|reflexivity].
Qed.

(** X6.  A timeframe that engulfs every phase, all of them lasting
    longer than an instant, counts each phase in full: the result is the
    sum of the durations of the phases. *)
Lemma aggregate_engulfed (workIntervals : list Interval)
      (timeframe : Interval) :
  Forall lasting workIntervals ->
  Forall (engulfs timeframe) workIntervals ->
  getWorkDuringTimeframe workIntervals timeframe
  = Js.Ok (Js.Num (totalDuration workIntervals)).
Proof.
  intros Hl He. unfold getWorkDuringTimeframe, totalDuration.
  assert (Hf : filter (fun i => overlaps timeframe i) workIntervals
               = workIntervals).
  { apply forallb_filter_id. apply forallb_forall. intros i Hi.
    rewrite Forall_forall in Hl, He.
    now destruct (engulfed_kept timeframe i (Hl i Hi) (He i Hi)). }
  assert (Hm : Js.map_array (fun i => intersection timeframe i) workIntervals
               = Js.Ok (map Some workIntervals)).
  { apply map_array_ok. intros i Hi. rewrite Forall_forall in Hl, He.
    now destruct (engulfed_kept timeframe i (Hl i Hi) (He i Hi)). }
  rewrite Hf, Hm. cbn [Js.bind]. now apply sumMinutes_Some.
Qed.

Lemma intersection_lasting (timeframe i j : Interval) :
  overlaps timeframe i = true ->
  intersection timeframe i = Js.Ok (Some j) ->
  lasting j.
Proof.
  destruct timeframe as [s1 e1|], i as [s2 e2|]; cbn; try discriminate.
  intros _.
  set (s := if s2 <? s1 then s1 else s2).
  set (e := if e1 <? e2 then e1 else e2).
  destruct (e <=? s) eqn:E; [discriminate|]. apply Z.leb_gt in E.
  destruct (e <? s) eqn:E'; [apply Z.ltb_lt in E'; lia|].
  intros [= <-]. exact E.
Qed.

Lemma sumMinutes_nonneg (l : list (option Interval)) (q : Q) (n : Js.number) :
  (forall j, In (Some j) l -> lasting j) ->
  (0 <= q)%Q ->
  sumMinutes (Js.Num q) l = Js.Ok n ->
  exists q', n = Js.Num q' /\ (0 <= q')%Q.
Proof.
  revert q. induction l as [|[j|] l IH]; intros q Hl Hq H.
  - injection H as <-. now exists q.
  - assert (Hj : lasting j) by (apply Hl; now left).
    destruct j as [s e|]; [|contradiction].
    cbn [sumMinutes toDuration_minutes Js.add] in H.
    apply IH in H; [exact H| |].
    + intros j Hin. apply Hl. now right.
    + apply (Qplus_le_compat 0 q 0 (diff_minutes e s)); [exact Hq|].
      unfold diff_minutes, Qle; cbn. cbn in Hj. lia.
  - discriminate.
Qed.

(** X7.  Whatever the phases and the timeframe, a duration that is
    returned is a number (not [NaN]) and is not negative. *)
Lemma aggregate_nonneg (workIntervals : list Interval) (timeframe : Interval)
      (n : Js.number) :
  getWorkDuringTimeframe workIntervals timeframe = Js.Ok n ->
  exists q, n = Js.Num q /\ (0 <= q)%Q.
Proof.
  unfold getWorkDuringTimeframe.
  destruct (Js.map_array _ _) as [l|] eqn:E; [|discriminate].
  cbn [Js.bind]. apply sumMinutes_nonneg.
  - intros j Hin.
    destruct (map_array_inv _ _ _ E (Some j) Hin) as (i & Hin' & Hi).
    apply filter_In in Hin'. destruct Hin' as [_ Hov].
    exact (intersection_lasting timeframe i j Hov Hi).
  - apply Qle_refl.
Qed.

(** C7 (the code at a phase of one instant).  Two events with the same
    date make a valid phase list whose only phase starts and ends at
    that date; a timeframe with that instant in its interior engulfs the
    phase, the two overlap, their intersection is [null], and the
    aggregator throws instead of returning the total duration 0. *)
Theorem aggregate_instant_phase :
  calculateWorkPhases 240 [eventAt (minutes 780); eventAt (minutes 780)]
  = Js.Ok [Between (minutes 780) (minutes 780)]
  /\ validPhaseList [Between (minutes 780) (minutes 780)]
  /\ engulfs (Between 0 (minutes 1440)) (Between (minutes 780) (minutes 780))
  /\ getWorkDuringTimeframe [Between (minutes 780) (minutes 780)]
                            (Between 0 (minutes 1440))
     = Js.Throw Js.TypeError.
Proof.
  split; [reflexivity|]. split; [|split; [cbn; lia | reflexivity]].
  split; repeat constructor. cbn. lia.
Qed.

(* ================================================================== *)
(** ** Properties of [gatherAllEvents]                                  *)
(* ================================================================== *)

Lemma compareEvents_after (x y : Event) :
  (0 <? compareEvents x y) = true <-> date y < date x.
Proof.
  unfold compareEvents.
  destruct (date x <? date y) eqn:E1; [apply Z.ltb_lt in E1|apply Z.ltb_ge in E1];
    (destruct (date y <? date x) eqn:E2;
     [apply Z.ltb_lt in E2|apply Z.ltb_ge in E2]);
    cbn; split; intro H; try lia; try discriminate; reflexivity.
Qed.

Section Sorting.

Variable A : Type.
Variable cmp : A -> A -> Z.

Lemma insert_perm (x : A) (l : list A) :
  Permutation (x :: l) (insert cmp x l).
Proof.
  induction l as [|y l IH]; cbn [insert]; [reflexivity|].
  destruct (0 <? cmp x y); [|reflexivity].
  rewrite perm_swap. now constructor.
Qed.

Lemma sort_perm (l : list A) : Permutation l (sort cmp l).
Proof.
  induction l as [|x l IH]; cbn [sort]; [constructor|].
  rewrite <- insert_perm. now constructor.
Qed.

End Sorting.

Lemma insert_ascending (x : Event) (l : list Event) :
  ascending l -> ascending (insert compareEvents x l).
Proof.
  unfold ascending.
  induction 1 as [|y l Hl IH Hy]; cbn [insert]; [repeat constructor|].
  destruct (0 <? compareEvents x y) eqn:E.
  - apply compareEvents_after in E. constructor; [exact IH|].
    rewrite <- insert_perm. constructor; [lia|exact Hy].
  - assert (Hxy : date x <= date y).
    { destruct (Z.lt_ge_cases (date y) (date x)) as [Hlt|Hge]; [|exact Hge].
      apply compareEvents_after in Hlt. congruence. }
    constructor; [now constructor|].
    constructor; [exact Hxy|].
    eapply Forall_impl; [|exact Hy]. cbn. intros; lia.
Qed.

Lemma sort_ascending (l : list Event) : ascending (sort compareEvents l).
Proof.
  induction l as [|x l IH]; cbn [sort]; [constructor|].
  now apply insert_ascending.
Qed.

(** Insertion does not reorder the events of one date. *)
Lemma insert_dated (t : Z) (x : Event) (l : list Event) :
  dated t (insert compareEvents x l) = dated t (x :: l).
Proof.
  unfold dated.
  induction l as [|y l IH]; cbn [insert]; [reflexivity|].
  destruct (0 <? compareEvents x y) eqn:E; [|reflexivity].
  apply compareEvents_after in E.
  cbn [filter] in *. rewrite IH.
  destruct (date x =? t) eqn:Ex, (date y =? t) eqn:Ey; try reflexivity.
  apply Z.eqb_eq in Ex, Ey. lia.
Qed.

Lemma sort_dated (t : Z) (l : list Event) :
  dated t (sort compareEvents l) = dated t l.
Proof.
  induction l as [|x l IH]; cbn [sort]; [reflexivity|].
  rewrite insert_dated. unfold dated in *. cbn [filter]. now rewrite IH.
Qed.

Lemma sort_length {A} (cmp : A -> A -> Z) (l : list A) :
  List.length (sort cmp l) = List.length l.
Proof. symmetry. apply Permutation_length, sort_perm. Qed.

Lemma flat_map_length_sum {A B} (f : A -> list B) (l : list A) :
  List.length (flat_map f l)
  = list_sum (map (fun a => List.length (f a)) l).
Proof.
  induction l as [|a l IH]; [reflexivity|].
  cbn [flat_map map list_sum]. now rewrite length_app, IH.
Qed.

(** C8.  [gatherAllEvents] returns, rearranged, the concatenation over
    the files of a ["commit"] event for each commit of the file followed
    by an ["issue"] event for each issue entry of the file: every commit
    and every issue entry of every file has its event in the timeline
    and the timeline has as many events as the files have entries.  The
    timeline is in ascending order of date, the events of equal date in
    their order of input; with no file it is empty. *)
Theorem gatherAllEvents_stable_sort :
  gatherAllEvents [] = []
  /\ forall files,
       let input :=
         List.concat
           (map (fun f =>
                   map (fun c => mkEvent "commit" (commit_date c) (OfCommit c))
                       (commits f)
                   ++ map (fun i => mkEvent "issue" (issue_date i) (OfIssue i))
                          (issues f))
                files) in
       Permutation input (gatherAllEvents files)
       /\ ascending (gatherAllEvents files)
       /\ (forall t, dated t (gatherAllEvents files) = dated t input)
       /\ (forall f c, In f files -> In c (commits f) ->
                       In (mkEvent "commit" (commit_date c) (OfCommit c))
                          (gatherAllEvents files))
       /\ (forall f i, In f files -> In i (issues f) ->
                       In (mkEvent "issue" (issue_date i) (OfIssue i))
                          (gatherAllEvents files))
       /\ List.length (gatherAllEvents files)
          = list_sum (map (fun f => (List.length (commits f)
                                     + List.length (issues f))%nat) files).
Proof.
  split; [reflexivity|]. intros files input.
  assert (Hin : input = flat_map eventsOfFile files)
    by (unfold input; now rewrite flat_map_concat_map).
  assert (Hperm : Permutation input (gatherAllEvents files))
    by (rewrite Hin; apply sort_perm).
  split; [exact Hperm|]. split; [apply sort_ascending|].
  split; [intro t; rewrite Hin; apply sort_dated|].
  split; [|split].
  - intros f c Hf Hc. apply (Permutation_in _ Hperm). rewrite Hin.
    apply in_flat_map. exists f. split; [exact Hf|].
    apply in_or_app. left. apply in_map_iff. now exists c.
  - intros f i Hf Hi. apply (Permutation_in _ Hperm). rewrite Hin.
    apply in_flat_map. exists f. split; [exact Hf|].
    apply in_or_app. right. apply in_map_iff. now exists i.
  - unfold gatherAllEvents. rewrite sort_length, flat_map_length_sum.
    f_equal. apply map_ext. intro f. unfold eventsOfFile.
    now rewrite length_app, !length_map.
Qed.

(* ================================================================== *)
(** ** Properties of [getCommitData]                                    *)
(* ================================================================== *)

Import Fetch.

Lemma includes_In (hashes : list string) (h : string) :
  includes hashes h = true <-> In h hashes.
Proof.
  unfold includes. rewrite existsb_exists. split.
  - intros (x & Hin & Heq). apply String.eqb_eq in Heq. now subst.
  - intro Hin. exists h. split; [exact Hin|apply String.eqb_refl].
Qed.

Lemma NoDup_snoc {A} (l : list A) (x : A) :
  NoDup l -> ~ In x l -> NoDup (l ++ [x]).
Proof.
  intros Hl Hx. apply NoDup_app; [exact Hl|repeat constructor; auto|].
  intros a Ha [<-|[]]. contradiction.
Qed.

(** The accumulator of the reduction in fetch.mjs: the hashes are those
    of the commits kept, they are distinct, and they are the hashes seen
    so far. *)
Lemma dedup_fold (l : list Tagged) (acc : Acc) :
  hashes acc = shas (plainCommits acc) ->
  NoDup (hashes acc) ->
  let acc' := fold_left dedup l acc in
  hashes acc' = shas (plainCommits acc')
  /\ NoDup (hashes acc')
  /\ forall h, In h (hashes acc') <-> In h (hashes acc) \/ In h (shas l).
Proof.
  revert acc. induction l as [|c l IH]; intros acc Heq Hnd; cbn [fold_left].
  - split; [exact Heq|]. split; [exact Hnd|]. intro h. cbn. tauto.
  - remember (dedup acc c) as acc1 eqn:Hacc1. unfold dedup in Hacc1.
    destruct (includes (hashes acc) (sha (api c))) eqn:E;
      cbn [negb] in Hacc1; subst acc1; cbv zeta.
    + apply includes_In in E.
      destruct (IH acc Heq Hnd) as (H1 & H2 & H3).
      split; [exact H1|]. split; [exact H2|].
      intro h. rewrite H3. cbn. intuition (subst; auto).
    + assert (Hnot : ~ In (sha (api c)) (hashes acc)).
      { intro Hin. apply includes_In in Hin. congruence. }
      destruct (IH (mkAcc (plainCommits acc ++ [c])
                          (hashes acc ++ [sha (api c)]))) as (H1 & H2 & H3).
      * cbn [hashes plainCommits]. unfold shas. rewrite map_app, Heq.
        reflexivity.
      * cbn [hashes]. now apply NoDup_snoc.
      * split; [exact H1|]. split; [exact H2|].
        intro h. rewrite H3. cbn [hashes]. rewrite in_app_iff. cbn.
        tauto.
Qed.

(** The check of index.mjs passes exactly when no hash repeats. *)
Lemma checkDuplicates_spec (l : list Tagged) (acc : list string) :
  NoDup acc ->
  (NoDup (acc ++ shas l) -> checkDuplicates acc l = Js.Ok (acc ++ shas l))
  /\ (forall res, checkDuplicates acc l = Js.Ok res -> NoDup (acc ++ shas l)).
Proof.
  revert acc. induction l as [|c l IH]; intros acc Hnd; cbn [checkDuplicates].
  - cbn. rewrite app_nil_r. split; [reflexivity|auto].
  - change (shas (c :: l)) with ([sha (api c)] ++ shas l).
    rewrite app_assoc.
    destruct (includes acc (sha (api c))) eqn:E.
    + apply includes_In in E. split; [|discriminate].
      intro H. apply NoDup_app_remove_r in H.
      apply NoDup_remove_2 in H. rewrite app_nil_r in H. contradiction.
    + apply IH. apply NoDup_snoc; [exact Hnd|].
      intro Hin. apply includes_In in Hin. congruence.
Qed.

Lemma shas_output (statsOf : string -> Stats) (l : list Tagged) :
  map commit_sha (map (output statsOf) l) = shas l.
Proof. unfold shas. rewrite map_map. reflexivity. Qed.

Lemma checkDuplicates_throws (l : list Tagged) (acc : list string)
      (e : Js.error) :
  checkDuplicates acc l = Js.Throw e -> e = Js.Error "Duplicate!".
Proof.
  revert acc. induction l as [|c l IH]; intros acc H; cbn in H;
    [discriminate|].
  destruct (includes acc (sha (api c))); [congruence|now apply (IH _ H)].
Qed.

(** C9 (as amended).  fetch.mjs removes duplicates: the commits it
    writes out have pairwise distinct hashes, and they are the hashes of
    the commits that are not squash merges (main list and pull requests
    together).  index.mjs does not remove them: it throws
    [Error('Duplicate!')] when a hash repeats among these commits and
    writes nothing, and it writes its list, with pairwise distinct
    hashes, exactly when no hash repeats. *)
Theorem getCommitData_distinct_shas (pulls : N -> list GitHubCommit)
        (statsOf : string -> Stats) (commits : list GitHubCommit) :
  let plain := filterPlainCommits (allCommits pulls commits) in
  let written := getCommitData pulls statsOf commits in
  NoDup (map commit_sha written)
  /\ (forall h, In h (map commit_sha written) <-> In h (shas plain))
  /\ (forall l, getCommitData_index pulls statsOf commits = Js.Ok l ->
                NoDup (map commit_sha l))
  /\ (NoDup (shas plain) ->
      getCommitData_index pulls statsOf commits
      = Js.Ok (map (output statsOf) plain))
  /\ (~ NoDup (shas plain) ->
      getCommitData_index pulls statsOf commits
      = Js.Throw (Js.Error "Duplicate!")).
Proof.
  intros plain written.
  destruct (dedup_fold plain (mkAcc [] [])) as (H1 & H2 & H3);
    [reflexivity|constructor|].
  fold (shas plain) in *.
  unfold written, getCommitData. fold plain. rewrite shas_output, <- H1.
  split; [exact H2|]. split; [intro h; rewrite H3; cbn; tauto|].
  unfold getCommitData_index. fold plain.
  destruct (checkDuplicates_spec plain []) as [Hok Hnd]; [constructor|].
  cbn [app] in *. split; [|split].
  - intros l H. destruct (checkDuplicates [] plain) eqn:E; [|discriminate].
    injection H as <-. rewrite shas_output. now apply (Hnd a).
  - intro H. now rewrite (Hok H).
  - intro H. destruct (checkDuplicates [] plain) as [res|e] eqn:E.
    + exfalso. apply H. now apply (Hnd res).
    + apply checkDuplicates_throws in E. subst e. reflexivity.
Qed.

Lemma getCommitData_distinct_shas_witness :
  map commit_sha (getCommitData pullCommits noStats mainCommits)
  = ["c1"; "c2"]%string
  /\ NoDup (map commit_sha (getCommitData pullCommits noStats mainCommits))
  /\ getCommitData_index pullCommits noStats mainCommits
     = Js.Throw (Js.Error "Duplicate!").
Proof.
  split; [reflexivity|].
  destruct (getCommitData_distinct_shas pullCommits noStats mainCommits)
    as (Hnd & _ & _ & _ & Hthrow).
  split; [exact Hnd|]. apply Hthrow.
  intro H. inversion H as [|? ? Hnot _]. apply Hnot. now left.
Defined.

(** With the first commit of the pull request also in the main list,
    index.mjs does not remove the second copy: it throws and writes no
    list at all. *)
Lemma index_throws_on_duplicate :
  getCommitData_index pullCommits noStats mainCommits
  = Js.Throw (Js.Error "Duplicate!")
  /\ ~ exists l, getCommitData_index pullCommits noStats mainCommits = Js.Ok l
                 /\ NoDup (map commit_sha l).
Proof. split; [reflexivity|]. intros (l & H & _). discriminate. Qed.

(* ================================================================== *)
(** ** The final phase after a gap                                      *)
(* ================================================================== *)

(** The provisional end is never later than the event being read. *)
Lemma walk_phaseTo_bound (threshold : Z) (rest : list Event) (a : Event)
      (w : Walk) :
  ascending (a :: rest) ->
  (forall t, phaseTo w = Some t -> t <= date a) ->
  forall t, phaseTo (walk threshold (a :: rest) w) = Some t ->
            t <= date (last rest a).
Proof.
  revert a w. induction rest as [|b rest IH]; intros a w Hasc Hw; [exact Hw|].
  change (walk threshold (a :: b :: rest) w)
    with (walk threshold (b :: rest) (step threshold a b w)).
  rewrite last_cons.
  inversion Hasc as [|? ? Hasc' Hab]; subst.
  assert (Hle : date a <= date b) by (inversion Hab; assumption).
  apply IH; [exact Hasc'|]. unfold step.
  destruct (gt _ threshold); cbn [phaseTo]; intros t Ht.
  - specialize (Hw t Ht). lia.
  - injection Ht as <-. lia.
Qed.

(** X25.  When the last gap of an ascending timeline exceeds a
    non-negative threshold, the final phase is opened at the last event
    with an end that is [undefined] or the date of an earlier event: the
    interval made of it is invalid. *)
Lemma trailing_event_invalid (threshold : Z) (l : list Event) (a b : Event) :
  0 <= threshold ->
  ascending (l ++ [a; b]) ->
  minutes threshold < date b - date a ->
  exists closed r,
    calculateWorkPhases threshold (l ++ [a; b])
    = Js.Ok (closed ++ [InvalidInterval r]).
Proof.
  intros HT Hasc Hgap.
  assert (Hcons : exists first rest, l ++ [a] = first :: rest).
  { destruct l as [|x l]; cbn; eauto. }
  destruct Hcons as (first & rest & Hl).
  assert (Heq : l ++ [a; b] = first :: rest ++ [b]).
  { change (l ++ [a; b]) with (l ++ [a] ++ [b]).
    now rewrite app_assoc, Hl. }
  assert (Hlast : last rest first = a).
  { rewrite <- (last_cons rest first first), <- Hl. apply last_last. }
  rewrite Heq, calculateWorkPhases_cons, <- Heq. cbv zeta.
  set (w0 := mkWalk [] (date first) None).
  rewrite walk_snoc, (step_break _ _ _ _ Hgap), Hl.
  cbn [phases phaseFrom phaseTo]. rewrite map_app. cbn [map].
  assert (Hasc1 : ascending (first :: rest)).
  { rewrite <- Hl. change (l ++ [a; b]) with (l ++ [a] ++ [b]) in Hasc.
    rewrite app_assoc in Hasc. unfold ascending in *.
    clear - Hasc. induction (l ++ [a]) as [|x l' IH]; [constructor|].
    cbn [app] in Hasc. inversion Hasc as [|? ? Hs Hall]; subst.
    constructor; [now apply IH|]. apply Forall_app in Hall. tauto. }
  pose proof (walk_phaseTo_bound threshold rest first w0 Hasc1) as Hb.
  rewrite Hlast in Hb.
  destruct (phaseTo (walk threshold (first :: rest) w0)) as [t|] eqn:Et.
  - assert (Ht : t <= date a) by (apply Hb; [discriminate|reflexivity]).
    eexists _, EndBeforeStart. f_equal. f_equal. f_equal.
    unfold toInterval; cbn.
    destruct (t <? date b) eqn:E; [reflexivity|].
    apply Z.ltb_ge in E. unfold minutes, MS_PER_MINUTE in Hgap. lia.
  - eexists _, MissingEnd. reflexivity.
Qed.

(** The scenario of events at 09:00, 09:30 and 13:00 with a threshold of
    two hours: the phase 09:00 to 09:35, and a final phase from 13:00
    whose end, 09:30, lies before its start. *)
Example scenario_two_hours :
  calculateWorkPhases 120
    [eventAt (minutes 540); eventAt (minutes 570); eventAt (minutes 780)]
  = Js.Ok [Between (minutes 540) (minutes 575);
           InvalidInterval EndBeforeStart].
Proof. reflexivity. Qed.

(* ================================================================== *)
(** ** More on [getWorkDuringTimeframe]                                 *)
(* ================================================================== *)

Lemma intersection_meet (timeframe p : Interval) :
  overlaps timeframe p = true ->
  intersection timeframe p = Js.Ok (meet timeframe p).
Proof.
  destruct timeframe as [ts te|], p as [s e|]; cbn; try discriminate.
  intros _.
  replace (if s <? ts then ts else s) with (Z.max s ts)
    by (destruct (s <? ts) eqn:E;
        [apply Z.ltb_lt in E|apply Z.ltb_ge in E]; lia).
  replace (if te <? e then te else e) with (Z.min e te)
    by (destruct (te <? e) eqn:E;
        [apply Z.ltb_lt in E|apply Z.ltb_ge in E]; lia).
  destruct (Z.min e te <=? Z.max s ts) eqn:E; [reflexivity|].
  apply Z.leb_gt in E.
  destruct (Z.min e te <? Z.max s ts) eqn:E'; [apply Z.ltb_lt in E'; lia|].
  reflexivity.
Qed.

(** The aggregator without its exceptions inside: the reduction runs
    over the meets of the phases that overlap the timeframe. *)
Lemma getWork_meet (workIntervals : list Interval) (timeframe : Interval) :
  getWorkDuringTimeframe workIntervals timeframe
  = sumMinutes (Js.Num 0)
      (map (meet timeframe)
           (filter (fun i => overlaps timeframe i) workIntervals)).
Proof.
  unfold getWorkDuringTimeframe.
  rewrite (map_array_ok _ (meet timeframe)); [reflexivity|].
  intros i Hi. apply filter_In in Hi. now apply intersection_meet.
Qed.

Lemma Qmake_plus (a b : Z) :
  ((a # 60000) + (b # 60000) == (a + b) # 60000)%Q.
Proof. unfold Qeq, Qplus; cbn. lia. Qed.

Lemma overlapMs_none (timeframe p : Interval) :
  overlaps timeframe p = false -> overlapMs timeframe p = 0.
Proof.
  destruct timeframe as [ts te|], p as [s e|]; cbn; try reflexivity.
  intro H. apply andb_false_iff in H.
  destruct H as [H|H]; apply Z.ltb_ge in H; lia.
Qed.

Lemma sumMinutes_shared (timeframe : Interval) (l : list Interval) (q : Q)
      (n : Js.number) :
  sumMinutes (Js.Num q)
    (map (meet timeframe) (filter (fun i => overlaps timeframe i) l))
  = Js.Ok n ->
  exists q', n = Js.Num q' /\ (q' == q + (sharedMs timeframe l # 60000))%Q.
Proof.
  revert q. induction l as [|p l IH]; intros q H; cbn [filter map] in H.
  - injection H as <-. exists q. split; [reflexivity|].
    cbn. unfold Qeq, Qplus; cbn. lia.
  - cbn [sharedMs fold_right]. fold (sharedMs timeframe l).
    destruct (overlaps timeframe p) eqn:Hov.
    + destruct timeframe as [ts te|], p as [s e|]; try discriminate.
      cbn [map meet] in H.
      destruct (Z.min e te <=? Z.max s ts) eqn:E; [discriminate|].
      apply Z.leb_gt in E.
      cbn [sumMinutes toDuration_minutes Js.add] in H.
      apply IH in H. destruct H as (q' & -> & Hq').
      exists q'. split; [reflexivity|]. rewrite Hq'.
      cbn [overlapMs]. rewrite (Z.max_r 0 (Z.min e te - Z.max s ts)) by lia.
      unfold diff_minutes. rewrite <- Qmake_plus. ring.
    + apply IH in H. destruct H as (q' & -> & Hq').
      exists q'. split; [reflexivity|].
      now rewrite Hq', (overlapMs_none _ _ Hov).
Qed.

(** A duration returned is the number of shared milliseconds over
    60000. *)
Lemma getWork_shared (workIntervals : list Interval) (timeframe : Interval)
      (n : Js.number) :
  getWorkDuringTimeframe workIntervals timeframe = Js.Ok n ->
  exists q, n = Js.Num q /\ (q == sharedMs timeframe workIntervals # 60000)%Q.
Proof.
  rewrite getWork_meet. intro H. apply sumMinutes_shared in H.
  destruct H as (q & -> & Hq). exists q. split; [reflexivity|].
  rewrite Hq. unfold Qeq, Qplus; cbn. lia.
Qed.

Lemma sharedMs_bound (ts te : Z) (l : list Interval) (a : Z) :
  validPhaseList l ->
  Forall (fun p => forall s e, p = Between s e -> s < e -> a <= s) l ->
  sharedMs (Between ts te) l <= Z.max 0 (te - Z.max ts a).
Proof.
  revert a. induction l as [|p l IH]; intros a [Hv Hs] Ha; [cbn; lia|].
  inversion Hv as [|? ? Hp Hv']; subst.
  inversion Hs as [|? ? Hs' Hall]; subst.
  inversion Ha as [|? ? Hpa Ha']; subst.
  destruct p as [s e|]; [|contradiction]. cbn in Hp.
  change (sharedMs (Between ts te) (Between s e :: l))
    with (Z.max 0 (Z.min e te - Z.max s ts) + sharedMs (Between ts te) l).
  assert (Hrest : sharedMs (Between ts te) l
                  <= Z.max 0 (te - Z.max ts (Z.max a e))).
  { apply IH; [now split|].
    rewrite Forall_forall in *. intros j Hj sj ej -> Hlast.
    specialize (Hall _ Hj). cbn in Hall. destruct Hall as [Hle Hov].
    specialize (Ha' _ Hj sj ej eq_refl Hlast).
    apply andb_false_iff in Hov.
    destruct Hov as [Hov|Hov]; apply Z.ltb_ge in Hov; lia. }
  destruct (Z.lt_ge_cases s e) as [Hlt|Hge].
  - specialize (Hpa s e eq_refl Hlt). lia.
  - lia.
Qed.

Lemma sumMinutes_null (l : list (option Interval)) (acc : Js.number) :
  In None l -> sumMinutes acc l = Js.Throw Js.TypeError.
Proof.
  revert acc. induction l as [|[i|] l IH]; intros acc H.
  - contradiction.
  - cbn [sumMinutes]. apply IH. destruct H as [H|H]; [discriminate|exact H].
  - reflexivity.
Qed.

Lemma sumMinutes_returns (l : list (option Interval)) (q : Q) :
  (forall x, In x l -> exists s e, x = Some (Between s e)) ->
  exists q', sumMinutes (Js.Num q) l = Js.Ok (Js.Num q').
Proof.
  revert q. induction l as [|x l IH]; intros q H; [now exists q|].
  destruct (H x (or_introl eq_refl)) as (s & e & ->).
  cbn [sumMinutes toDuration_minutes Js.add].
  apply IH. intros y Hy. apply H. now right.
Qed.

Lemma instant_meet (ts te : Z) (p : Interval) :
  ts < te -> wellFormed p ->
  (overlaps (Between ts te) p = true /\ meet (Between ts te) p = None)
  <-> instantInside (Between ts te) p.
Proof.
  intros Ht Hp. destruct p as [s e|]; cbn in *.
  - rewrite andb_true_iff, !Z.ltb_lt.
    destruct (Z.min e te <=? Z.max s ts) eqn:E;
      [apply Z.leb_le in E|apply Z.leb_gt in E];
      (split; [intros [[H1 H2] H3]|intros [H1 H2]]);
      try discriminate; try lia; repeat split; try lia; reflexivity.
  - split; [intros [H _]; discriminate|contradiction].
Qed.

(** X1.  A timeframe that is invalid, or that every phase is apart from
    (the phase is invalid, ends at or before the start of the timeframe,
    or starts at or after its end), gives 0 and does not throw. *)
Theorem aggregate_apart_zero (workIntervals : list Interval)
        (timeframe : Interval) :
  Forall (apart timeframe) workIntervals ->
  getWorkDuringTimeframe workIntervals timeframe = Js.Ok (Js.Num 0).
Proof.
  intro H. rewrite getWork_meet.
  replace (filter (fun i => overlaps timeframe i) workIntervals) with
    (@nil Interval); [reflexivity|].
  symmetry. induction H as [|p l Hp Hl IH]; [reflexivity|].
  cbn [filter]. rewrite IH.
  destruct timeframe as [ts te|], p as [s e|]; cbn in *; try reflexivity.
  destruct Hp as [Hp|Hp].
  - replace (ts <? e) with false by (symmetry; apply Z.ltb_ge; lia).
    now rewrite andb_false_r.
  - replace (s <? te) with false by (symmetry; apply Z.ltb_ge; lia).
    reflexivity.
Qed.

Lemma aggregate_apart_zero_witness :
  getWorkDuringTimeframe
    [Between (minutes 540) (minutes 575); InvalidInterval EndBeforeStart]
    (Between (minutes 600) (minutes 660))
  = Js.Ok (Js.Num 0).
Proof.
  apply aggregate_apart_zero. repeat constructor. cbn. lia.
Defined.

Lemma sharedMs_le_duration (ts te : Z) (l : list Interval) :
  validPhaseList l -> ts <= te ->
  sharedMs (Between ts te) l <= te - ts.
Proof.
  intros Hv Hw. destruct l as [|p l]; [cbn; lia|].
  destruct p as [s e|];
    [|destruct Hv as [Hv _]; inversion Hv; contradiction].
  pose proof (sharedMs_bound ts te (Between s e :: l) (Z.min ts s) Hv)
    as Hb.
  rewrite (Z.max_l ts (Z.min ts s)) in Hb by lia.
  rewrite (Z.max_r 0 (te - ts)) in Hb by lia.
  apply Hb. destruct Hv as [_ Hs].
  inversion Hs as [|? ? _ Hall]; subst.
  constructor; [intros ? ? [= <- <-] _; lia|].
  eapply Forall_impl; [|exact Hall].
  intros j Hj sj ej -> _. cbn in Hj. lia.
Qed.

Lemma intersections_meet (workIntervals : list Interval)
      (timeframe : Interval) :
  intersections workIntervals timeframe
  = Js.Ok (map (meet timeframe)
               (filter (fun i => overlaps timeframe i) workIntervals)).
Proof.
  unfold intersections. apply map_array_ok.
  intros i Hi. apply filter_In in Hi. now apply intersection_meet.
Qed.

Lemma getWork_intersections (workIntervals : list Interval)
      (timeframe : Interval) :
  getWorkDuringTimeframe workIntervals timeframe
  = (js <- intersections workIntervals timeframe ;;
     sumMinutes (Js.Num 0) js).
Proof. reflexivity. Qed.

Lemma totalMs_meet (timeframe : Interval) (l : list Interval) :
  totalMs (map (meet timeframe) (filter (fun i => overlaps timeframe i) l))
  = sharedMs timeframe l.
Proof.
  induction l as [|p l IH]; [reflexivity|].
  change (sharedMs timeframe (p :: l))
    with (overlapMs timeframe p + sharedMs timeframe l).
  cbn [filter]. destruct (overlaps timeframe p) eqn:Hov.
  - cbn [map totalMs fold_right]. fold (totalMs (map (meet timeframe)
      (filter (fun i => overlaps timeframe i) l))). rewrite IH. f_equal.
    destruct timeframe as [ts te|], p as [s e|]; try discriminate.
    cbn. destruct (Z.min e te <=? Z.max s ts) eqn:E;
      [apply Z.leb_le in E|apply Z.leb_gt in E]; cbn; lia.
  - now rewrite IH, (overlapMs_none _ _ Hov).
Qed.

(** X2.  No instant is counted twice: on a valid phase list (sorted,
    pairwise non-overlapping, [start <= end]) the intersections whose
    durations the aggregator adds up have a total length, in
    milliseconds, of at most the length of the timeframe. *)
Theorem intersections_within_timeframe (workIntervals : list Interval)
        (ts te : Z) :
  validPhaseList workIntervals ->
  ts <= te ->
  exists js,
    intersections workIntervals (Between ts te) = Js.Ok js
    /\ getWorkDuringTimeframe workIntervals (Between ts te)
       = sumMinutes (Js.Num 0) js
    /\ totalMs js <= te - ts.
Proof.
  intros Hv Hle. eexists. split; [apply intersections_meet|].
  split; [now rewrite getWork_intersections, intersections_meet|].
  rewrite totalMs_meet. now apply sharedMs_le_duration.
Qed.

Lemma intersections_within_timeframe_witness :
  exists js,
    intersections [Between 0 (minutes 10); Between (minutes 10) (minutes 30)]
                  (Between (minutes 5) (minutes 20))
    = Js.Ok js
    /\ getWorkDuringTimeframe
         [Between 0 (minutes 10); Between (minutes 10) (minutes 30)]
         (Between (minutes 5) (minutes 20))
       = sumMinutes (Js.Num 0) js
    /\ totalMs js <= minutes 20 - minutes 5.
Proof.
  apply (intersections_within_timeframe
           [Between 0 (minutes 10); Between (minutes 10) (minutes 30)]
           (minutes 5) (minutes 20)).
  - split.
    + repeat (constructor; [cbn; lia|]). constructor.
    + constructor; [repeat constructor|].
      constructor; [split; [cbn; lia|reflexivity]|constructor].
  - cbn. lia.
Defined.

Lemma overlapMs_split (ts m te : Z) (p : Interval) :
  ts <= m <= te ->
  overlapMs (Between ts te) p
  = overlapMs (Between ts m) p + overlapMs (Between m te) p.
Proof. intro H. destruct p as [s e|]; cbn; lia. Qed.

Lemma sharedMs_split (ts m te : Z) (l : list Interval) :
  ts <= m <= te ->
  sharedMs (Between ts te) l
  = sharedMs (Between ts m) l + sharedMs (Between m te) l.
Proof.
  intro H. induction l as [|p l IH]; [reflexivity|].
  change (overlapMs (Between ts te) p + sharedMs (Between ts te) l
          = overlapMs (Between ts m) p + sharedMs (Between ts m) l
            + (overlapMs (Between m te) p + sharedMs (Between m te) l)).
  rewrite IH, (overlapMs_split ts m te p H). lia.
Qed.

(** X3.  Timeframes that meet at an instant add up: for
    [ts <= m <= te] the intersections added for [ts, te] have the total
    length, in milliseconds, of those added for [ts, m] and those added
    for [m, te] together. *)
Theorem intersections_additive (workIntervals : list Interval)
        (ts m te : Z) :
  ts <= m <= te ->
  exists js1 js2 js,
    intersections workIntervals (Between ts m) = Js.Ok js1
    /\ intersections workIntervals (Between m te) = Js.Ok js2
    /\ intersections workIntervals (Between ts te) = Js.Ok js
    /\ totalMs js = totalMs js1 + totalMs js2.
Proof.
  intro Hm. eexists _, _, _.
  split; [apply intersections_meet|].
  split; [apply intersections_meet|].
  split; [apply intersections_meet|].
  rewrite !totalMs_meet. now apply sharedMs_split.
Qed.

Lemma intersections_additive_witness :
  exists js1 js2 js,
    intersections [Between 0 (minutes 18)] (Between 0 (minutes 6))
    = Js.Ok js1
    /\ intersections [Between 0 (minutes 18)] (Between (minutes 6) (minutes 18))
       = Js.Ok js2
    /\ intersections [Between 0 (minutes 18)] (Between 0 (minutes 18))
       = Js.Ok js
    /\ totalMs js = totalMs js1 + totalMs js2.
Proof.
  apply (intersections_additive [Between 0 (minutes 18)]
                                0 (minutes 6) (minutes 18)).
  cbn. lia.
Defined.

(** X4.  For a timeframe with [start < end] and phases as
    [Interval.fromDateTimes] makes them, the aggregator throws (a
    [TypeError]) when some phase is a single instant strictly inside the
    timeframe, and returns a number when none is. *)
Theorem aggregate_throws_iff (workIntervals : list Interval) (ts te : Z) :
  ts < te ->
  Forall wellFormed workIntervals ->
  (Exists (instantInside (Between ts te)) workIntervals ->
   getWorkDuringTimeframe workIntervals (Between ts te)
   = Js.Throw Js.TypeError)
  /\ (~ Exists (instantInside (Between ts te)) workIntervals ->
      exists q, getWorkDuringTimeframe workIntervals (Between ts te)
                = Js.Ok (Js.Num q)).
Proof.
  intros Ht Hw. rewrite getWork_meet. rewrite Forall_forall in Hw. split.
  - intro Hex. apply Exists_exists in Hex. destruct Hex as (p & Hin & Hp).
    apply sumMinutes_null.
    apply (instant_meet ts te p Ht (Hw p Hin)) in Hp. destruct Hp as [Hov Hm].
    rewrite <- Hm. apply in_map. apply filter_In. now split.
  - intro Hnone. apply sumMinutes_returns.
    intros x Hx. apply in_map_iff in Hx. destruct Hx as (p & <- & Hin).
    apply filter_In in Hin. destruct Hin as [Hin Hov].
    destruct (meet (Between ts te) p) as [j|] eqn:Hm.
    + destruct p as [s e|]; [|discriminate]. cbn in Hm.
      destruct (Z.min e te <=? Z.max s ts); [discriminate|].
      injection Hm as <-. eauto.
    + exfalso. apply Hnone. apply Exists_exists. exists p.
      split; [exact Hin|].
      now apply (instant_meet ts te p Ht (Hw p Hin)).
Qed.

Lemma aggregate_throws_iff_witness :
  getWorkDuringTimeframe [Between (minutes 780) (minutes 780)]
                         (Between 0 (minutes 1440))
  = Js.Throw Js.TypeError
  /\ exists q, getWorkDuringTimeframe [Between (minutes 780) (minutes 800)]
                                      (Between 0 (minutes 1440))
               = Js.Ok (Js.Num q).
Proof.
  split.
  - apply (aggregate_throws_iff [Between (minutes 780) (minutes 780)]
                                0 (minutes 1440));
      [reflexivity | repeat constructor; cbn; lia |].
    constructor. cbn. lia.
  - apply (aggregate_throws_iff [Between (minutes 780) (minutes 800)]
                                0 (minutes 1440));
      [reflexivity | repeat constructor; cbn; lia |].
    intro H. inversion H as [? ? Hi|? ? Hi]; subst; [cbn in Hi; lia|].
    inversion Hi.
Defined.

Lemma overlaps_valid (timeframe p : Interval) :
  overlaps timeframe p = true -> isValid p = true.
Proof. destruct timeframe, p; cbn; auto; discriminate. Qed.

(** X5.  Invalid intervals in the phase list count for nothing: the
    aggregator gives the same result with them and without them.  The
    invalid final phase that segmentation makes of an isolated trailing
    event adds no minute to any report. *)
Theorem aggregate_ignores_invalid (workIntervals : list Interval)
        (timeframe : Interval) :
  getWorkDuringTimeframe workIntervals timeframe
  = getWorkDuringTimeframe (filter isValid workIntervals) timeframe.
Proof.
  rewrite !getWork_meet. f_equal. f_equal.
  induction workIntervals as [|p l IH]; [reflexivity|].
  cbn [filter]. destruct (overlaps timeframe p) eqn:Hov.
  - rewrite (overlaps_valid _ _ Hov). cbn [filter]. rewrite Hov.
    now f_equal.
  - destruct (isValid p); [cbn [filter]; rewrite Hov|]; exact IH.
Qed.

Lemma aggregate_engulfed_witness :
  getWorkDuringTimeframe
    [Between (minutes 540) (minutes 575); Between (minutes 780) (minutes 800)]
    (Between 0 (minutes 1440))
  = Js.Ok (Js.Num (totalDuration
                     [Between (minutes 540) (minutes 575);
                      Between (minutes 780) (minutes 800)])).
Proof.
  apply aggregate_engulfed; repeat constructor; cbn; lia.
Defined.

Lemma aggregate_nonneg_witness :
  exists q, Js.Num (90000000000 # 3600000000) = Js.Num q /\ (0 <= q)%Q.
Proof.
  apply (aggregate_nonneg
           [Between (minutes 540) (minutes 575);
            Between (minutes 780) (minutes 800)]
           (Between (minutes 560) (minutes 790))).
  reflexivity.
Defined.

(* ================================================================== *)
(** ** Properties of [printCalendar]                                    *)
(* ================================================================== *)

Lemma cellInterval_between (currentDay : Z) (index : nat) :
  cellInterval currentDay index
  = Between (currentDay + Z.of_nat index * minutes DURATION)
            (currentDay + (Z.of_nat index + 1) * minutes DURATION).
Proof.
  unfold cellInterval, fromDateTimes, plus_minutes, minutes, DURATION,
    MS_PER_MINUTE.
  match goal with |- (if ?c then _ else _) = _ => destruct c eqn:E end;
    [apply Z.ltb_lt in E; lia|].
  f_equal; lia.
Qed.

Lemma cellIndices_In (index : nat) :
  In index cellIndices <-> (index < 48)%nat.
Proof. unfold cellIndices. rewrite in_seq. cbn. lia. Qed.

(** X8.  The 48 cells of a row tile the 24 hours that start at
    [currentDay]: an instant of these 24 hours is contained in the cell
    numbered [(t - currentDay) / 30 minutes] and in no other cell, and
    an instant outside them is contained in no cell. *)
Theorem cells_partition_day (currentDay t : Z) (index : nat) :
  In index cellIndices ->
  (contains (cellInterval currentDay index) t = true
   <-> currentDay <= t < currentDay + MS_PER_DAY
       /\ index = cellOf currentDay t)
  /\ (currentDay <= t < currentDay + MS_PER_DAY ->
      In (cellOf currentDay t) cellIndices).
Proof.
  intro Hi. apply cellIndices_In in Hi.
  rewrite cellInterval_between. unfold contains, cellOf.
  rewrite andb_true_iff, Z.leb_le, Z.ltb_lt, cellIndices_In.
  unfold minutes, DURATION, MS_PER_MINUTE, MS_PER_DAY.
  change (30 * 60000) with 1800000.
  split; [split|].
  - intros [H1 H2].
    assert (Hq : (t - currentDay) / 1800000 = Z.of_nat index).
    { symmetry. apply (Z.div_unique_pos _ _ _
                         (t - currentDay - Z.of_nat index * 1800000)); lia. }
    rewrite Hq. lia.
  - intros [H1 ->].
    pose proof (Z.div_mod (t - currentDay) 1800000 ltac:(lia)) as Hdm.
    pose proof (Z.mod_pos_bound (t - currentDay) 1800000 ltac:(lia)) as Hm.
    assert (0 <= (t - currentDay) / 1800000)
      by (apply Z.div_pos; lia).
    rewrite Z2Nat.id by assumption. lia.
  - intro H1.
    assert (0 <= (t - currentDay) / 1800000 < 48).
    { split; [apply Z.div_pos; lia|].
      apply Z.div_lt_upper_bound; lia. }
    lia.
Qed.

Lemma cells_partition_day_witness :
  contains (cellInterval 0 19) (minutes 570) = true
  <-> 0 <= minutes 570 < 0 + MS_PER_DAY /\ (19 = cellOf 0 (minutes 570))%nat.
Proof.
  apply (cells_partition_day 0 (minutes 570) 19).
  apply cellIndices_In. lia.
Defined.

Lemma sharedMs_nonneg (timeframe : Interval) (l : list Interval) :
  0 <= sharedMs timeframe l.
Proof.
  induction l as [|p l IH]; [cbn; lia|].
  change (0 <= overlapMs timeframe p + sharedMs timeframe l).
  assert (0 <= overlapMs timeframe p)
    by (destruct timeframe, p; cbn; lia).
  lia.
Qed.

Lemma overlaps_sym (i j : Interval) : overlaps i j = overlaps j i.
Proof. destruct i, j; cbn; auto. apply andb_comm. Qed.

Lemma sharedMs_pos (timeframe : Interval) (l : list Interval) :
  0 < sharedMs timeframe l <-> Exists (fun p => 0 < overlapMs timeframe p) l.
Proof.
  induction l as [|p l IH]; [cbn; split; [lia|intro H; inversion H]|].
  change (sharedMs timeframe (p :: l))
    with (overlapMs timeframe p + sharedMs timeframe l).
  pose proof (sharedMs_nonneg timeframe l).
  assert (0 <= overlapMs timeframe p)
    by (destruct timeframe, p; cbn; lia).
  rewrite Exists_cons, <- IH. lia.
Qed.

(** X9.  A cell is underlined exactly when the minutes worked in its
    interval are positive, whenever the aggregator returns for it: the
    overlap test of the row and the aggregator agree. *)
Theorem underlined_iff_worked (workPhases : list Interval) (phase : Interval)
        (q : Q) :
  getWorkDuringTimeframe workPhases phase = Js.Ok (Js.Num q) ->
  (cellIsInPhase workPhases phase = true <-> (0 < q)%Q).
Proof.
  intro H. pose proof H as Hs. apply getWork_shared in Hs.
  destruct Hs as (? & [= <-] & Hq). rewrite Hq.
  assert (Hpos : (0 < sharedMs phase workPhases # 60000)%Q
                 <-> 0 < sharedMs phase workPhases)
    by (unfold Qlt; cbn; lia).
  rewrite Hpos, sharedMs_pos. unfold cellIsInPhase.
  rewrite existsb_exists, Exists_exists.
  rewrite getWork_meet in H.
  split; intros (p & Hin & Hp); exists p; (split; [exact Hin|]).
  - rewrite overlaps_sym in Hp.
    destruct (meet phase p) as [j|] eqn:Hm.
    + destruct phase as [ts te|], p as [s e|]; try discriminate.
      cbn in Hm |- *.
      destruct (Z.min e te <=? Z.max s ts) eqn:E; [discriminate|].
      apply Z.leb_gt in E. lia.
    + exfalso. rewrite sumMinutes_null in H; [discriminate|].
      rewrite <- Hm. apply in_map. apply filter_In. now split.
  - rewrite overlaps_sym.
    destruct (overlaps phase p) eqn:Hov; [reflexivity|].
    rewrite (overlapMs_none _ _ Hov) in Hp. lia.
Qed.

Lemma underlined_iff_worked_witness :
  cellIsInPhase [Between (minutes 540) (minutes 575)] (cellInterval 0 19)
  = true
  <-> (0 < 300000 # 60000)%Q.
Proof.
  assert (H : getWorkDuringTimeframe [Between (minutes 540) (minutes 575)]
                                     (cellInterval 0 19)
              = Js.Ok (Js.Num (0 + (300000 # 60000))))
    by reflexivity.
  pose proof (underlined_iff_worked _ _ _ H) as Hw.
  split; intro H'; [reflexivity|apply Hw; reflexivity].
Defined.

Lemma dayInterval_between (currentDay : Z) :
  dayInterval currentDay = Between currentDay (endOf_day currentDay)
  /\ endOf_day currentDay - currentDay
     = MS_PER_DAY - 1 - currentDay mod MS_PER_DAY.
Proof.
  unfold dayInterval, fromDateTimes, endOf_day, MS_PER_DAY.
  pose proof (Z.mod_pos_bound currentDay 86400000 ltac:(lia)) as Hm.
  split; [|lia].
  match goal with |- (if ?c then _ else _) = _ => destruct c eqn:E end;
    [apply Z.ltb_lt in E; lia|reflexivity].
Qed.

(** X10.  The minutes worked of a calendar row are counted up to the
    last millisecond of the calendar day of [currentDay] only: on a
    valid phase list the intersections added for the row have a total
    length of at most [86399999 - currentDay mod 86400000] milliseconds,
    less than a day, and less again when [currentDay] is not a
    midnight. *)
Theorem dayInterval_intersections_bounded (workPhases : list Interval)
        (currentDay : Z) :
  validPhaseList workPhases ->
  exists js,
    intersections workPhases (dayInterval currentDay) = Js.Ok js
    /\ minutesWorked workPhases currentDay = sumMinutes (Js.Num 0) js
    /\ totalMs js <= MS_PER_DAY - 1 - currentDay mod MS_PER_DAY
    /\ totalMs js < MS_PER_DAY.
Proof.
  intro Hv. unfold minutesWorked.
  destruct (dayInterval_between currentDay) as [Hd Hlen]. rewrite Hd.
  pose proof (Z.mod_pos_bound currentDay MS_PER_DAY ltac:(now cbv)) as Hm.
  eexists. split; [apply intersections_meet|].
  split; [now rewrite getWork_intersections, intersections_meet|].
  rewrite totalMs_meet.
  assert (Hb : sharedMs (Between currentDay (endOf_day currentDay)) workPhases
               <= endOf_day currentDay - currentDay)
    by (apply sharedMs_le_duration; [exact Hv|lia]).
  lia.
Qed.

Lemma dayInterval_intersections_bounded_witness :
  exists js,
    intersections [Between (minutes (-60)) (minutes 1500)] (dayInterval 0)
    = Js.Ok js
    /\ minutesWorked [Between (minutes (-60)) (minutes 1500)] 0
       = sumMinutes (Js.Num 0) js
    /\ totalMs js <= MS_PER_DAY - 1 - 0 mod MS_PER_DAY
    /\ totalMs js < MS_PER_DAY.
Proof.
  apply (dayInterval_intersections_bounded
           [Between (minutes (-60)) (minutes 1500)] 0).
  split; repeat constructor. cbn. lia.
Defined.

Lemma rowsFrom_S (first : Z) (n : nat) :
  rowsFrom first (S n) = first :: rowsFrom (first + MS_PER_DAY) n.
Proof.
  unfold rowsFrom. cbn [seq map]. f_equal; [cbn; lia|].
  rewrite <- seq_shift, map_map. apply map_ext. intro k. lia.
Qed.

Lemma calendarRows_spec (fuel : nat) (currentDay to : Z) :
  (Z.to_nat ((to - currentDay + MS_PER_DAY - 1) / MS_PER_DAY) < fuel)%nat ->
  calendarRows fuel currentDay to
  = Some (rowsFrom (currentDay + MS_PER_DAY)
                   (Z.to_nat ((to - currentDay + MS_PER_DAY - 1)
                              / MS_PER_DAY))).
Proof.
  revert currentDay. unfold MS_PER_DAY.
  induction fuel as [|fuel IH]; intros currentDay Hf; [lia|].
  cbn [calendarRows]. unfold plus_days, MS_PER_DAY.
  destruct (currentDay <? to) eqn:E;
    [apply Z.ltb_lt in E|apply Z.ltb_ge in E].
  - assert (Hn : Z.to_nat ((to - currentDay + 86400000 - 1) / 86400000)
                 = S (Z.to_nat ((to - (currentDay + 1 * 86400000)
                                 + 86400000 - 1) / 86400000))).
    { replace (to - currentDay + 86400000 - 1)
        with ((to - (currentDay + 1 * 86400000) + 86400000 - 1)
              + 1 * 86400000) by lia.
      rewrite Z.div_add by lia.
      assert (0 <= (to - (currentDay + 1 * 86400000) + 86400000 - 1)
                   / 86400000) by (apply Z.div_pos; lia).
      lia. }
    rewrite Hn in *. rewrite IH by lia. rewrite rowsFrom_S.
    unfold MS_PER_DAY. repeat f_equal; lia.
  - assert (Hn : (to - currentDay + 86400000 - 1) / 86400000 <= 0).
    { apply Z.lt_succ_r. apply Z.div_lt_upper_bound; lia. }
    destruct (Z.to_nat _) eqn:Ez; [reflexivity|lia].
Qed.

Lemma calendarRows_options_spec (fuel : nat) (currentDay to : Z) :
  (Z.to_nat ((to - currentDay - 1) / MS_PER_DAY) < fuel)%nat ->
  calendarRows_options fuel currentDay to
  = Some (rowsFrom (currentDay + MS_PER_DAY)
                   (Z.to_nat ((to - currentDay - 1) / MS_PER_DAY))).
Proof.
  revert currentDay. unfold MS_PER_DAY.
  induction fuel as [|fuel IH]; intros currentDay Hf; [lia|].
  cbn [calendarRows_options]. unfold plus_days, MS_PER_DAY.
  destruct (currentDay + 1 * 86400000 <? to) eqn:E;
    [apply Z.ltb_lt in E|apply Z.ltb_ge in E].
  - assert (Hn : Z.to_nat ((to - currentDay - 1) / 86400000)
                 = S (Z.to_nat ((to - (currentDay + 1 * 86400000) - 1)
                                / 86400000))).
    { replace (to - currentDay - 1)
        with ((to - (currentDay + 1 * 86400000) - 1) + 1 * 86400000) by lia.
      rewrite Z.div_add by lia.
      assert (0 <= (to - (currentDay + 1 * 86400000) - 1) / 86400000)
        by (apply Z.div_pos; lia).
      lia. }
    rewrite Hn in *. rewrite IH by lia. rewrite rowsFrom_S.
    unfold MS_PER_DAY. repeat f_equal; lia.
  - assert (Hn : (to - currentDay - 1) / 86400000 <= 0).
    { apply Z.lt_succ_r. apply Z.div_lt_upper_bound; lia. }
    destruct (Z.to_nat _) eqn:Ez; [reflexivity|lia].
Qed.

(** X11.  The calendar of analyse.mjs has one row per day, starting at
    [from]: the rows are [from], [from] + 1 day, ... and there are
    [(to - from + 2 days - 1 ms) / 1 day] of them (none when that is
    negative), so the last row is the first of these days that is not
    before [to].  The loop ends: that many iterations and one more
    suffice. *)
Theorem printCalendar_rows (fuel : nat) (from to : Z) :
  let n := Z.to_nat ((to - from + 2 * MS_PER_DAY - 1) / MS_PER_DAY) in
  (n < fuel)%nat ->
  printCalendar_days fuel from to = Some (rowsFrom from n)
  /\ Forall (fun day => day - MS_PER_DAY < to) (rowsFrom from n)
  /\ to <= from + Z.of_nat n * MS_PER_DAY.
Proof.
  intros n Hf. unfold printCalendar_days, plus_days.
  assert (Hn : n = Z.to_nat ((to - (from + -1 * MS_PER_DAY) + MS_PER_DAY - 1)
                             / MS_PER_DAY))
    by (subst n; f_equal; f_equal; lia).
  rewrite calendarRows_spec by (rewrite <- Hn; exact Hf).
  rewrite <- Hn. replace (from + -1 * MS_PER_DAY + MS_PER_DAY) with from by lia.
  split; [reflexivity|].
  pose proof (Z.div_mod (to - from + 2 * MS_PER_DAY - 1) MS_PER_DAY
                        ltac:(now cbv)) as Hdm.
  pose proof (Z.mod_pos_bound (to - from + 2 * MS_PER_DAY - 1) MS_PER_DAY
                              ltac:(now cbv)) as Hm.
  unfold MS_PER_DAY in *. split.
  - unfold rowsFrom. apply Forall_forall. intros day Hin.
    apply in_map_iff in Hin. destruct Hin as (k & <- & Hk).
    apply in_seq in Hk. unfold MS_PER_DAY. lia.
  - lia.
Qed.

Lemma printCalendar_rows_witness :
  printCalendar_days 5 0 (minutes 2880)
  = Some (rowsFrom 0 3).
Proof.
  apply (printCalendar_rows 5 0 (minutes 2880)). cbn. lia.
Defined.

(** X12.  The variant with command-line options ends its calendar one
    row earlier: its rows are the days from [from] on that are before
    [to], and analyse.mjs prints these rows and one more, whenever
    [from] is not after [to]. *)
Theorem printCalendar_rows_options (fuel : nat) (from to : Z) :
  let n := Z.to_nat ((to - from + MS_PER_DAY - 1) / MS_PER_DAY) in
  from <= to ->
  (S n < fuel)%nat ->
  printCalendar_days_options fuel from to = Some (rowsFrom from n)
  /\ Forall (fun day => day < to) (rowsFrom from n)
  /\ printCalendar_days fuel from to
     = Some (rowsFrom from n ++ [from + Z.of_nat n * MS_PER_DAY]).
Proof.
  intros n Hle Hf. unfold printCalendar_days_options, printCalendar_days,
    plus_days.
  assert (Hn : n = Z.to_nat ((to - (from + -1 * MS_PER_DAY) - 1)
                             / MS_PER_DAY))
    by (subst n; f_equal; f_equal; lia).
  assert (Hn' : S n = Z.to_nat ((to - (from + -1 * MS_PER_DAY)
                                 + MS_PER_DAY - 1) / MS_PER_DAY)).
  { subst n. unfold MS_PER_DAY.
    replace (to - (from + -1 * 86400000) + 86400000 - 1)
      with ((to - from + 86400000 - 1) + 1 * 86400000) by lia.
    rewrite Z.div_add by lia.
    assert (0 <= (to - from + 86400000 - 1) / 86400000)
      by (apply Z.div_pos; lia).
    lia. }
  rewrite calendarRows_options_spec by (rewrite <- Hn; lia).
  rewrite calendarRows_spec by (rewrite <- Hn'; exact Hf).
  rewrite <- Hn, <- Hn'.
  replace (from + -1 * MS_PER_DAY + MS_PER_DAY) with from by lia.
  split; [reflexivity|]. split.
  - pose proof (Z.div_mod (to - from + MS_PER_DAY - 1) MS_PER_DAY
                          ltac:(now cbv)) as Hdm.
    pose proof (Z.mod_pos_bound (to - from + MS_PER_DAY - 1) MS_PER_DAY
                                ltac:(now cbv)) as Hm.
    assert (0 <= (to - from + MS_PER_DAY - 1) / MS_PER_DAY)
      by (apply Z.div_pos; unfold MS_PER_DAY; lia).
    unfold rowsFrom. apply Forall_forall. intros day Hin.
    apply in_map_iff in Hin. destruct Hin as (k & <- & Hk).
    apply in_seq in Hk. unfold MS_PER_DAY in *. lia.
  - f_equal. unfold rowsFrom. rewrite seq_S, map_app. reflexivity.
Qed.

Lemma printCalendar_rows_options_witness :
  printCalendar_days_options 5 0 (minutes 2880) = Some (rowsFrom 0 2)
  /\ printCalendar_days 5 0 (minutes 2880)
     = Some (rowsFrom 0 2 ++ [0 + Z.of_nat 2 * MS_PER_DAY]).
Proof.
  destruct (printCalendar_rows_options 5 0 (minutes 2880))
    as (H1 & _ & H2); [cbn; lia | cbn; lia |].
  split; [exact H1|exact H2].
Defined.

(* ================================================================== *)
(** ** More on [calculateWorkPhases]                                    *)
(* ================================================================== *)

Lemma trailing_event_invalid_witness :
  exists closed r,
    calculateWorkPhases 120
      ([eventAt (minutes 540)]
         ++ [eventAt (minutes 570); eventAt (minutes 780)])
    = Js.Ok (closed ++ [InvalidInterval r]).
Proof.
  apply (trailing_event_invalid 120 [eventAt (minutes 540)]
                                (eventAt (minutes 570))
                                (eventAt (minutes 780)));
    [lia | repeat constructor; cbn; lia | cbn; lia].
Defined.

Lemma inClosed_app (l1 l2 : list Phase) (t : Z) :
  inClosed l1 t -> inClosed (l1 ++ l2) t.
Proof.
  intros (p & e & Hin & H). exists p, e. split; [|exact H].
  apply in_or_app. now left.
Qed.

Lemma walk_covers (threshold : Z) (rest : list Event) (a : Event) (w : Walk)
      (seen : Z -> Prop) :
  ascending (a :: rest) ->
  (forall t, seen t -> t <= date a) ->
  (forall t, seen t -> inClosed (phases w) t \/ phaseFrom w <= t) ->
  phaseFrom w <= date a ->
  forall t, seen t \/ In t (map date (a :: rest)) ->
            inClosed (phases (walk threshold (a :: rest) w)) t
            \/ phaseFrom (walk threshold (a :: rest) w) <= t.
Proof.
  revert a w seen.
  induction rest as [|b rest IH]; intros a w seen Hasc Hle Hcov Hpf t Ht.
  - cbn [walk]. destruct Ht as [Ht|[<-|[]]]; [now apply Hcov|now right].
  - change (walk threshold (a :: b :: rest) w)
      with (walk threshold (b :: rest) (step threshold a b w)).
    inversion Hasc as [|? ? Hasc' Hab]; subst.
    assert (Hab' : date a <= date b) by (inversion Hab; assumption).
    apply (IH b (step threshold a b w) (fun t => seen t \/ date a = t));
      [exact Hasc'| | | |].
    + intros t' [Hs| <-]; [specialize (Hle t' Hs)|]; lia.
    + intros t' Hs.
      destruct (Z.lt_ge_cases (minutes threshold) (date b - date a))
        as [Hgap|Hgap].
      * rewrite step_break by exact Hgap. cbn [phases phaseFrom]. left.
        assert (Hnew : phaseFrom w <= t' <= date a ->
                       inClosed (phases w ++
                                 [mkPhase (phaseFrom w)
                                          (Some (date a + minutes PADDING))])
                                t').
        { intro Hb. eexists _, _. split; [apply in_or_app; right; now left|].
          cbn. split; [reflexivity|lia]. }
        destruct Hs as [Hs| <-].
        -- destruct (Hcov t' Hs) as [Hc|Hc]; [now apply inClosed_app|].
           apply Hnew. specialize (Hle t' Hs). lia.
        -- apply Hnew. lia.
      * rewrite step_extend by exact Hgap. cbn [phases phaseFrom].
        destruct Hs as [Hs| <-]; [now apply Hcov|now right].
    + unfold step. destruct (gt _ threshold); cbn [phaseFrom]; lia.
    + cbn [map In] in Ht |- *. tauto.
Qed.

(** X13.  No event is lost: on a non-empty ascending timeline every
    event lies in a closed phase, at least five minutes before the end
    of that phase, or at or after the start of the final phase. *)
Theorem every_event_in_a_phase (threshold : Z) (timeline : list Event) :
  timeline <> [] ->
  ascending timeline ->
  exists closed final,
    rawPhases threshold timeline = Js.Ok (closed ++ [final])
    /\ forall e, In e timeline ->
                 inClosed closed (date e) \/ from final <= date e.
Proof.
  intros Hne Hasc. destruct timeline as [|first rest]; [contradiction|].
  rewrite rawPhases_cons. cbv zeta.
  eexists _, _. split; [reflexivity|]. intros e He. cbn [from].
  apply (walk_covers threshold rest first
                     (mkWalk [] (date first) None) (fun _ => False));
    [exact Hasc|contradiction|contradiction|cbn; lia|].
  right. now apply in_map.
Qed.

Lemma every_event_in_a_phase_witness :
  exists closed final,
    rawPhases 120 workday = Js.Ok (closed ++ [final])
    /\ forall e, In e workday ->
                 inClosed closed (date e) \/ from final <= date e.
Proof.
  apply (every_event_in_a_phase 120 workday);
    [discriminate | repeat constructor; cbn; lia].
Defined.

Lemma walk_separated (threshold : Z) (rest : list Event) (a : Event)
      (w : Walk) :
  ascending (a :: rest) ->
  Forall padded (phases w) ->
  StronglySorted (followsAfter threshold) (phases w) ->
  Forall (fun p => exists e, to p = Some e
                             /\ e + minutes (threshold - PADDING)
                                < phaseFrom w) (phases w) ->
  phaseFrom w <= date a ->
  let w' := walk threshold (a :: rest) w in
  Forall padded (phases w')
  /\ StronglySorted (followsAfter threshold) (phases w')
  /\ Forall (fun p => exists e, to p = Some e
                                /\ e + minutes (threshold - PADDING)
                                   < phaseFrom w') (phases w').
Proof.
  revert a w.
  induction rest as [|b rest IH]; intros a w Hasc Hp Hs Hb Hf; [now cbn|].
  change (walk threshold (a :: b :: rest) w)
    with (walk threshold (b :: rest) (step threshold a b w)).
  cbv zeta.
  inversion Hasc as [|? ? Hasc' Hab]; subst.
  assert (Hle : date a <= date b) by (inversion Hab; assumption).
  destruct (Z.lt_ge_cases (minutes threshold) (date b - date a)) as [Hgap|Hgap].
  - rewrite step_break by exact Hgap.
    apply IH; cbn [phases phaseFrom]; [exact Hasc'| | | |lia].
    + apply Forall_app. split; [exact Hp|].
      constructor; [|constructor]. eexists. split; [reflexivity|].
      cbn. lia.
    + apply StronglySorted_snoc; [exact Hs|]. exact Hb.
    + apply Forall_app. split.
      * eapply Forall_impl; [|exact Hb].
        intros p (e & He & Hlt). exists e. split; [exact He|lia].
      * constructor; [|constructor]. eexists. split; [reflexivity|].
        unfold minutes, MS_PER_MINUTE, PADDING in *. lia.
  - rewrite step_extend by exact Hgap.
    apply IH; cbn [phases phaseFrom]; [exact Hasc'|exact Hp|exact Hs|exact Hb|lia].
Qed.

(** X14.  On a non-empty ascending timeline every closed phase lasts at
    least five minutes, and every later phase, the final one included,
    starts more than the threshold less five minutes after it ends. *)
Theorem phases_padded_and_separated (threshold : Z)
        (timeline : list Event) :
  timeline <> [] ->
  ascending timeline ->
  exists closed final,
    rawPhases threshold timeline = Js.Ok (closed ++ [final])
    /\ Forall padded closed
    /\ StronglySorted (followsAfter threshold) (closed ++ [final]).
Proof.
  intros Hne Hasc. destruct timeline as [|first rest]; [contradiction|].
  rewrite rawPhases_cons. cbv zeta.
  destruct (walk_separated threshold rest first
                           (mkWalk [] (date first) None) Hasc)
    as (Hp & Hs & Hb); [constructor|constructor|constructor|cbn; lia|].
  eexists _, _. split; [reflexivity|]. split; [exact Hp|].
  apply StronglySorted_snoc; [exact Hs|exact Hb].
Qed.

Lemma phases_padded_and_separated_witness :
  exists closed final,
    rawPhases 120 workday = Js.Ok (closed ++ [final])
    /\ Forall padded closed
    /\ StronglySorted (followsAfter 120) (closed ++ [final]).
Proof.
  apply (phases_padded_and_separated 120 workday);
    [discriminate | repeat constructor; cbn; lia].
Defined.

Lemma filter_length_mono {A} (f g : A -> bool) (l : list A) :
  (forall x, f x = true -> g x = true) ->
  (List.length (filter f l) <= List.length (filter g l))%nat.
Proof.
  intro H. induction l as [|x l IH]; [constructor|].
  cbn [filter]. destruct (f x) eqn:Ef.
  - rewrite (H x Ef). cbn [List.length]. lia.
  - destruct (g x); cbn [List.length]; lia.
Qed.

(** X15.  Raising the threshold never adds a phase: on the same
    timeline a larger threshold gives at most as many phases. *)
Theorem larger_threshold_fewer_phases (t1 t2 : Z) (timeline : list Event) :
  t1 <= t2 ->
  timeline <> [] ->
  exists l1 l2,
    calculateWorkPhases t1 timeline = Js.Ok l1
    /\ calculateWorkPhases t2 timeline = Js.Ok l2
    /\ (List.length l2 <= List.length l1)%nat.
Proof.
  intros Ht Hne. destruct timeline as [|first rest]; [contradiction|].
  rewrite !calculateWorkPhases_cons. cbv zeta.
  eexists _, _. split; [reflexivity|]. split; [reflexivity|].
  rewrite !length_map, !length_app, !walk_length. cbn [phases List.length].
  pose proof (filter_length_mono (exceeds t2) (exceeds t1)
                                 (pairs (first :: rest))) as H.
  assert (forall x, exceeds t2 x = true -> exceeds t1 x = true).
  { intros x Hx. unfold exceeds in *. apply Z.ltb_lt in Hx. apply Z.ltb_lt.
    unfold minutes, MS_PER_MINUTE in *. lia. }
  specialize (H H0). lia.
Qed.

Lemma larger_threshold_fewer_phases_witness :
  exists l1 l2,
    calculateWorkPhases 20 workday = Js.Ok l1
    /\ calculateWorkPhases 240 workday = Js.Ok l2
    /\ (List.length l2 <= List.length l1)%nat.
Proof.
  apply (larger_threshold_fewer_phases 20 240 workday); [lia|discriminate].
Defined.

Lemma walk_negative (threshold : Z) (rest : list Event) (a : Event)
      (w : Walk) :
  threshold < 0 ->
  ascending (a :: rest) ->
  phaseFrom w = date a ->
  walk threshold (a :: rest) w
  = mkWalk (phases w
            ++ map (fun e => mkPhase (date e)
                                     (Some (date e + minutes PADDING)))
                   (removelast (a :: rest)))
           (date (last rest a))
           (phaseTo w).
Proof.
  intro HT. revert a w.
  induction rest as [|b rest IH]; intros a w Hasc Hf.
  - destruct w as [ps pf pt]. cbn in *. subst. now rewrite app_nil_r.
  - change (walk threshold (a :: b :: rest) w)
      with (walk threshold (b :: rest) (step threshold a b w)).
    inversion Hasc as [|? ? Hasc' Hab]; subst.
    assert (Hle : date a <= date b) by (inversion Hab; assumption).
    rewrite step_break by (unfold minutes, MS_PER_MINUTE; lia).
    rewrite IH by (assumption || reflexivity).
    cbn [phases phaseFrom phaseTo]. rewrite last_cons, Hf, <- app_assoc.
    reflexivity.
Qed.

(** X16.  With a negative threshold every event of a non-empty
    ascending timeline opens a phase of its own: each event but the last
    gives the phase from its date to five minutes later, and the last
    event gives the invalid final phase, so there are as many phases as
    events. *)
Theorem negative_threshold_phase_per_event (threshold : Z)
        (timeline : list Event) :
  threshold < 0 ->
  timeline <> [] ->
  ascending timeline ->
  calculateWorkPhases threshold timeline
  = Js.Ok (map (fun e => Between (date e) (date e + minutes 5))
               (removelast timeline)
           ++ [InvalidInterval MissingEnd])
  /\ List.length (map (fun e => Between (date e) (date e + minutes 5))
                      (removelast timeline)
                  ++ [InvalidInterval MissingEnd])
     = List.length timeline.
Proof.
  intros HT Hne Hasc. destruct timeline as [|first rest]; [contradiction|].
  split.
  - rewrite calculateWorkPhases_cons. cbv zeta.
    rewrite walk_negative by (assumption || reflexivity).
    cbn [phases phaseFrom phaseTo app]. rewrite map_app, map_map.
    f_equal. f_equal. apply map_ext. intro e. cbn [from to].
    apply toInterval_closed. unfold minutes, MS_PER_MINUTE, PADDING. lia.
  - rewrite length_app, length_map. cbn [List.length].
    clear. revert first. induction rest as [|b rest IH]; intro first;
      [reflexivity|].
    change (removelast (first :: b :: rest))
      with (first :: removelast (b :: rest)).
    cbn [List.length]. rewrite <- (IH b). cbn [List.length]. lia.
Qed.

Lemma negative_threshold_phase_per_event_witness :
  calculateWorkPhases (-1) [eventAt 0; eventAt 0; eventAt (minutes 1)]
  = Js.Ok [Between 0 (minutes 5); Between 0 (minutes 5);
           InvalidInterval MissingEnd].
Proof.
  apply (negative_threshold_phase_per_event
           (-1) [eventAt 0; eventAt 0; eventAt (minutes 1)]);
    [lia | discriminate | repeat constructor; cbn; lia].
Defined.

(* ================================================================== *)
(** ** More on [gatherAllEvents]                                        *)
(* ================================================================== *)

(** X17.  The comparator is a consistent comparison: swapping its
    arguments negates the result, it gives 0 exactly on equal dates, and
    [compareEvents a b <= 0] is transitive.  The order that [sort]
    produces is therefore determined by the dates alone. *)
Theorem compareEvents_consistent (a b c : Event) :
  compareEvents a b = - compareEvents b a
  /\ (compareEvents a b = 0 <-> date a = date b)
  /\ (compareEvents a b <= 0 -> compareEvents b c <= 0 ->
      compareEvents a c <= 0).
Proof.
  unfold compareEvents.
  destruct (date a <? date b) eqn:E1, (date b <? date a) eqn:E2,
           (date b <? date c) eqn:E3, (date c <? date b) eqn:E4,
           (date a <? date c) eqn:E5, (date c <? date a) eqn:E6;
    rewrite ?Z.ltb_lt, ?Z.ltb_ge in *; repeat split; intros; lia.
Qed.

(** X18.  Every event of the timeline carries the entry it was made
    from: a ["commit"] event has a commit as data and the date of that
    commit, an ["issue"] event has an issue event as data and its date,
    and the entry comes from one of the files. *)
Theorem gatherAllEvents_tagged (files : list File) (e : Event) :
  In e (gatherAllEvents files) ->
  match data e with
  | OfCommit c =>
      type e = "commit"%string /\ date e = commit_date c
      /\ exists f, In f files /\ In c (commits f)
  | OfIssue i =>
      type e = "issue"%string /\ date e = issue_date i
      /\ exists f, In f files /\ In i (issues f)
  end.
Proof.
  unfold gatherAllEvents. intro H.
  apply (Permutation_in _ (Permutation_sym (sort_perm _ compareEvents _))) in H.
  apply in_flat_map in H. destruct H as (f & Hf & He).
  unfold eventsOfFile in He. apply in_app_or in He.
  destruct He as [He|He]; apply in_map_iff in He;
    destruct He as (x & <- & Hx); cbn; eauto.
Qed.

Lemma gatherAllEvents_tagged_witness :
  type (eventAt 7) = "issue"%string /\ date (eventAt 7) = 7
  /\ exists f, In f [mkFile [] [mkIssue "adzialocha" 7 "closed" 1]]
               /\ In (mkIssue "adzialocha" 7 "closed" 1) (issues f).
Proof.
  apply (gatherAllEvents_tagged
           [mkFile [] [mkIssue "adzialocha" 7 "closed" 1]] (eventAt 7)).
  now left.
Defined.

(* ================================================================== *)
(** ** Properties of [findPullRequest]                                  *)
(* ================================================================== *)

Lemma firstLineOf_append (line body : string) :
  firstLineOf (String.append line (String "010"%char body))
  = firstLineOf line.
Proof.
  induction line as [|c line IH]; cbn; [reflexivity|].
  destruct (Ascii.eqb c "010"%char); [reflexivity|]. now rewrite IH.
Qed.

(** X19.  Only the first line of the message is searched: whatever
    follows the first line break does not change the result. *)
Theorem findPullRequest_first_line (c : GitHubCommit) (line body : string) :
  message c = String.append line (String "010"%char body) ->
  findPullRequest c
  = findPullRequest (mkGitHubCommit (sha c) (login c) (authorDate c) line).
Proof.
  intro H. unfold findPullRequest. cbn [message].
  now rewrite H, firstLineOf_append.
Qed.

Lemma findPullRequest_first_line_witness :
  findPullRequest
    (mkGitHubCommit "c3" "adzialocha" 0
       (String.append "Add analysis (#5)"
                      (String "010"%char "Closes (#7) and (#8)")))
  = findPullRequest (mkGitHubCommit "c3" "adzialocha" 0 "Add analysis (#5)").
Proof.
  apply (findPullRequest_first_line
           (mkGitHubCommit "c3" "adzialocha" 0
              (String.append "Add analysis (#5)"
                             (String "010"%char "Closes (#7) and (#8)")))
           "Add analysis (#5)" "Closes (#7) and (#8)").
  reflexivity.
Defined.

Lemma restart_noParen (c : ascii) : c <> "("%char -> restart c = Idle.
Proof.
  intro H. unfold restart.
  destruct (Ascii.eqb c "("%char) eqn:E; [|reflexivity].
  apply Ascii.eqb_eq in E. contradiction.
Qed.

Lemma matchAll_skip (pre l : list ascii) :
  noParen pre -> matchAll Idle (pre ++ l) = matchAll Idle l.
Proof.
  induction 1 as [|c pre Hc Hpre IH]; [reflexivity|].
  cbn [app matchAll]. now rewrite (restart_noParen c Hc).
Qed.

Lemma matchAll_digits (ds acc l : list ascii) :
  allDigits ds ->
  matchAll (Digits acc) (ds ++ ")"%char :: l)
  = (acc ++ ds) :: matchAll Idle l.
Proof.
  intro H. revert acc. induction H as [|d ds Hd Hds IH]; intro acc.
  - cbn. now rewrite app_nil_r.
  - cbn [app matchAll]. rewrite Hd, IH, <- app_assoc. reflexivity.
Qed.

Lemma matchAll_reference (ds l : list ascii) :
  ds <> [] -> allDigits ds ->
  matchAll Idle (reference ds ++ l) = ds :: matchAll Idle l.
Proof.
  intros Hne Hds. destruct ds as [|d ds]; [contradiction|].
  inversion Hds as [|? ? Hd Hds']; subst.
  unfold reference. cbn [app matchAll restart].
  change (Ascii.eqb "(" "(") with true.
  change (Ascii.eqb "#" "#") with true. cbn iota.
  rewrite Hd, <- app_assoc. cbn [app].
  now rewrite matchAll_digits.
Qed.

Lemma toDouble_exact (n : N) :
  (n < 9007199254740992)%N -> toDouble n = n.
Proof.
  intro H. unfold toDouble. apply N.ltb_lt in H. now rewrite H.
Qed.

(** Above [2^53] the number of the reference is rounded: this one loses
    its last unit. *)
Lemma parseInt_rounds :
  decimalValue (list_ascii_of_string "9007199254740993")
  = 9007199254740993%N
  /\ parseInt (list_ascii_of_string "9007199254740993")
     = 9007199254740992%N.
Proof. split; vm_compute; reflexivity. Qed.

(** X20.  A first line with one reference [(#digits)] and no other
    opening parenthesis gives the number written by the digits, when
    that number is below [2^53] (above, [parseInt] rounds it to a
    double). *)
Theorem findPullRequest_single_reference (c : GitHubCommit)
        (pre ds post : list ascii) :
  firstLineOf (message c) = pre ++ reference ds ++ post ->
  noParen pre -> noParen post ->
  ds <> [] -> allDigits ds ->
  (decimalValue ds < 9007199254740992)%N ->
  findPullRequest c = Some (decimalValue ds).
Proof.
  intros H Hpre Hpost Hne Hds Hlt. unfold findPullRequest.
  rewrite H, matchAll_skip, matchAll_reference by assumption.
  rewrite <- (app_nil_r post), matchAll_skip by assumption.
  cbn [matchAll]. unfold parseInt. now rewrite toDouble_exact.
Qed.

Lemma findPullRequest_single_reference_witness :
  findPullRequest (mkGitHubCommit "c3" "adzialocha" 0 "Add analysis (#57)")
  = Some 57%N.
Proof.
  apply (findPullRequest_single_reference
           (mkGitHubCommit "c3" "adzialocha" 0 "Add analysis (#57)")
           (list_ascii_of_string "Add analysis ")
           (list_ascii_of_string "57") []);
    [reflexivity | | constructor | discriminate | repeat constructor
     | reflexivity].
  repeat (constructor; [discriminate|]). constructor.
Defined.

Lemma matchAll_app (pre l : list ascii) (st : Match) :
  exists st', matchAll st (pre ++ l) = matchAll st pre ++ matchAll st' l.
Proof.
  revert st. induction pre as [|c pre IH]; intro st.
  - exists st. now destruct st.
  - cbn [app matchAll].
    destruct st as [| | |ds];
      repeat match goal with
             | |- context [if ?b then _ else _] => destruct b
             end;
      match goal with
      | |- exists _, _ :: matchAll ?s (pre ++ l) = _ =>
          destruct (IH s) as [st' ->]; exists st'; reflexivity
      | |- exists _, matchAll ?s (pre ++ l) = _ =>
          destruct (IH s) as [st' ->]; exists st'; reflexivity
      end.
Qed.

(** Wherever the search stands, an opening parenthesis starts a new
    attempt, so a reference is found in every state. *)
Lemma matchAll_reference_any (st : Match) (ds l : list ascii) :
  ds <> [] -> allDigits ds ->
  matchAll st (reference ds ++ l) = ds :: matchAll Idle l.
Proof.
  intros Hne Hds.
  assert (Hp : matchAll st (reference ds ++ l)
               = matchAll Paren (("#"%char :: ds ++ [")"%char]) ++ l)).
  { unfold reference. cbn [app matchAll].
    destruct st as [| | |acc]; reflexivity. }
  rewrite Hp. destruct ds as [|d ds]; [contradiction|].
  inversion Hds as [|? ? Hd Hds']; subst.
  cbn [app matchAll].
  change (Ascii.eqb "#" "#") with true. cbn iota.
  rewrite Hd, <- app_assoc. cbn [app].
  now rewrite matchAll_digits.
Qed.

(** X21.  A first line with two references is ambiguous and gives no
    pull request, whatever stands before, between and after the two. *)
Theorem findPullRequest_two_references (c : GitHubCommit)
        (pre ds1 mid ds2 post : list ascii) :
  firstLineOf (message c)
  = pre ++ reference ds1 ++ mid ++ reference ds2 ++ post ->
  ds1 <> [] -> allDigits ds1 ->
  ds2 <> [] -> allDigits ds2 ->
  findPullRequest c = None.
Proof.
  intros H Hne1 Hds1 Hne2 Hds2. unfold findPullRequest. rewrite H.
  destruct (matchAll_app pre (reference ds1 ++ mid ++ reference ds2 ++ post)
                         Idle) as [st1 ->].
  rewrite (matchAll_reference_any st1 ds1 _ Hne1 Hds1).
  destruct (matchAll_app mid (reference ds2 ++ post) Idle) as [st2 ->].
  rewrite (matchAll_reference_any st2 ds2 _ Hne2 Hds2).
  destruct (matchAll Idle pre) as [|a [|b m]]; cbn [app];
    [destruct (matchAll Idle mid); reflexivity
    |reflexivity|reflexivity].
Qed.

Lemma findPullRequest_two_references_witness :
  findPullRequest
    (mkGitHubCommit "c4" "adzialocha" 0 "(see (#1x) Merge (#5) (into (#6) (wip")
  = None.
Proof.
  apply (findPullRequest_two_references
           (mkGitHubCommit "c4" "adzialocha" 0
                           "(see (#1x) Merge (#5) (into (#6) (wip")
           (list_ascii_of_string "(see (#1x) Merge ")
           (list_ascii_of_string "5")
           (list_ascii_of_string " (into ") (list_ascii_of_string "6")
           (list_ascii_of_string " (wip"));
    [reflexivity | discriminate | repeat constructor
     | discriminate | repeat constructor].
Defined.

(* ================================================================== *)
(** ** More on [getCommitData]                                          *)
(* ================================================================== *)

Lemma dedup_first (l : list Tagged) (acc : Acc) (c : Tagged) :
  In c (plainCommits (fold_left dedup l acc)) ->
  In c (plainCommits acc)
  \/ exists l1 l2, l = l1 ++ c :: l2
                   /\ ~ In (sha (api c)) (shas l1)
                   /\ ~ In (sha (api c)) (hashes acc).
Proof.
  revert acc. induction l as [|x l IH]; intros acc H; [now left|].
  cbn [fold_left] in H. apply IH in H. unfold dedup in H.
  destruct (includes (hashes acc) (sha (api x))) eqn:E; cbn [negb] in H.
  - apply includes_In in E.
    destruct H as [H|(l1 & l2 & -> & H1 & H2)]; [now left|right].
    exists (x :: l1), l2. split; [reflexivity|]. split; [|exact H2].
    intros [Heq|Hin]; [|contradiction]. rewrite <- Heq in H2. contradiction.
  - assert (Hx : ~ In (sha (api x)) (hashes acc)).
    { intro Hin. apply includes_In in Hin. congruence. }
    cbn [plainCommits hashes] in H.
    destruct H as [H|(l1 & l2 & -> & H1 & H2)].
    + apply in_app_or in H. destruct H as [H|[<-|[]]]; [now left|right].
      exists [], l. split; [reflexivity|]. split; [intros []|exact Hx].
    + right. exists (x :: l1), l2. split; [reflexivity|].
      rewrite in_app_iff in H2. cbn in H2. split; [|tauto].
      intros [Heq|Hin]; [|contradiction]. tauto.
Qed.

Lemma dedup_sub (l : list Tagged) (acc : Acc) (c : Tagged) :
  In c (plainCommits (fold_left dedup l acc)) ->
  In c (plainCommits acc) \/ In c l.
Proof.
  intro H. apply dedup_first in H.
  destruct H as [H|(l1 & l2 & -> & _)]; [now left|right].
  apply in_or_app. right. now left.
Qed.

Lemma allCommits_eq (pulls : N -> list GitHubCommit)
      (commits : list GitHubCommit) :
  allCommits pulls commits
  = snd (findAssociatedPRs commits)
    ++ flat_map (fetchCommitsInPullRequest pulls)
                (fst (findAssociatedPRs commits)).
Proof. reflexivity. Qed.

Lemma plain_main (commits : list GitHubCommit) (c : Tagged) :
  In c (filterPlainCommits (snd (findAssociatedPRs commits))) ->
  exists g, In g commits /\ findPullRequest g = None
            /\ c = mkTagged g false false None.
Proof.
  unfold filterPlainCommits, findAssociatedPRs. cbn [snd].
  intro H. apply filter_In in H. destruct H as [H Hs].
  apply in_map_iff in H. destruct H as (g & <- & Hg).
  exists g. cbn in Hs. destruct (findPullRequest g); [discriminate|].
  auto.
Qed.

Lemma plain_pull (pulls : N -> list GitHubCommit)
      (commits : list GitHubCommit) (c : Tagged) :
  In c (flat_map (fetchCommitsInPullRequest pulls)
                 (fst (findAssociatedPRs commits))) ->
  exists m id g, In m commits /\ findPullRequest m = Some id
                 /\ In g (pulls id) /\ c = mkTagged g false true (Some id).
Proof.
  unfold findAssociatedPRs. cbn [fst]. intro H.
  apply in_flat_map in H. destruct H as (id & Hid & Hc).
  apply in_flat_map in Hid. destruct Hid as (m & Hm & Hid).
  unfold fetchCommitsInPullRequest in Hc. apply in_map_iff in Hc.
  destruct Hc as (g & <- & Hg).
  exists m, id, g. destruct (findPullRequest m) as [id'|]; [|contradiction].
  destruct Hid as [<-|[]]. auto.
Qed.

(** X22.  Every commit written out is a commit of the main list whose
    first line names no single pull request, written with
    [pullRequestId: null], or a commit of a pull request that a commit
    of the main list names, written with the id of that pull request;
    the squash merges themselves are not written, and the id written is
    never 0. *)
Theorem getCommitData_provenance (pulls : N -> list GitHubCommit)
        (statsOf : string -> Stats) (commits : list GitHubCommit)
        (c : Commit) :
  In c (getCommitData pulls statsOf commits) ->
  ((exists g, In g commits /\ findPullRequest g = None
              /\ c = output statsOf (mkTagged g false false None))
   \/ (exists m id g, In m commits /\ findPullRequest m = Some id
                      /\ In g (pulls id)
                      /\ c = output statsOf
                                    (mkTagged g false true (Some id))))
  /\ commit_pullRequestId c <> Some 0%N.
Proof.
  unfold getCommitData. intro H. apply in_map_iff in H.
  destruct H as (t & <- & Ht). apply dedup_sub in Ht.
  destruct Ht as [[]|Ht]. split.
  - unfold filterPlainCommits in Ht. rewrite allCommits_eq, filter_app in Ht.
    apply in_app_or in Ht. destruct Ht as [Ht|Ht].
    + left. apply plain_main in Ht. destruct Ht as (g & Hg & Hn & ->). eauto.
    + right. apply filter_In in Ht. destruct Ht as [Ht _].
      apply plain_pull in Ht. destruct Ht as (m & id & g & ? & ? & ? & ->).
      eauto 8.
  - unfold output; cbn. destruct (pullRequestId t) as [[|p]|]; discriminate.
Qed.

Lemma getCommitData_provenance_witness :
  ((exists g, In g mainCommits /\ findPullRequest g = None
              /\ mkCommit "adzialocha" (minutes 20) "Walk the timeline"
                          (Some 5%N) "c2" (noStats "c2")
                 = output noStats (mkTagged g false false None))
   \/ (exists m id g, In m mainCommits /\ findPullRequest m = Some id
                      /\ In g (pullCommits id)
                      /\ mkCommit "adzialocha" (minutes 20) "Walk the timeline"
                                  (Some 5%N) "c2" (noStats "c2")
                         = output noStats (mkTagged g false true (Some id))))
  /\ Some 5%N <> Some 0%N.
Proof.
  apply (getCommitData_provenance
           pullCommits noStats mainCommits
           (mkCommit "adzialocha" (minutes 20) "Walk the timeline"
                     (Some 5%N) "c2" (noStats "c2"))).
  right. left. reflexivity.
Defined.

(** X23.  The copy of the main list wins: every commit of the main list
    that is not a squash merge is written out with [pullRequestId: null],
    also when a pull request holds a commit with the same sha. *)
Theorem getCommitData_main_list_first (pulls : N -> list GitHubCommit)
        (statsOf : string -> Stats) (commits : list GitHubCommit)
        (g : GitHubCommit) :
  In g commits ->
  findPullRequest g = None ->
  exists c, In c (getCommitData pulls statsOf commits)
            /\ commit_sha c = sha g
            /\ commit_pullRequestId c = None.
Proof.
  intros Hg Hn.
  set (plain := filterPlainCommits (allCommits pulls commits)).
  set (main := filterPlainCommits (snd (findAssociatedPRs commits))).
  assert (Hplain : plain = main
                   ++ filterPlainCommits
                        (flat_map (fetchCommitsInPullRequest pulls)
                                  (fst (findAssociatedPRs commits)))).
  { unfold plain, main, filterPlainCommits.
    now rewrite allCommits_eq, filter_app. }
  assert (Hmain : In (mkTagged g false false None) main).
  { unfold main, filterPlainCommits, findAssociatedPRs. cbn [snd].
    apply filter_In. split; [|reflexivity].
    apply in_map_iff. exists g. rewrite Hn. auto. }
  destruct (dedup_fold plain (mkAcc [] [])) as (H1 & _ & H3);
    [reflexivity|constructor|].
  assert (Hsha : In (sha g) (shas (kept pulls commits))).
  { unfold kept. fold plain. rewrite <- H1. apply H3. right.
    rewrite Hplain. unfold shas. rewrite map_app. apply in_or_app. left.
    apply in_map_iff. exists (mkTagged g false false None). auto. }
  unfold shas in Hsha. apply in_map_iff in Hsha.
  destruct Hsha as (t & Hts & Ht).
  exists (output statsOf t). split; [|split].
  - unfold getCommitData. fold plain. now apply in_map.
  - exact Hts.
  - unfold kept in Ht. fold plain in Ht. apply dedup_first in Ht.
    destruct Ht as [[]|(l1 & l2 & Hsplit & Hnot & _)].
    rewrite Hplain in Hsplit. symmetry in Hsplit.
    apply app_eq_app in Hsplit.
    assert (Hin : In t main).
    { destruct Hsplit as (l & [[-> _]|[-> Hl]]).
      - exfalso. apply Hnot. rewrite Hts. unfold shas.
        apply in_map_iff. exists (mkTagged g false false None).
        split; [reflexivity|]. apply in_or_app. now left.
      - destruct l as [|x l].
        + exfalso. apply Hnot. rewrite Hts. unfold shas.
          apply in_map_iff. exists (mkTagged g false false None).
          split; [reflexivity|]. now rewrite app_nil_r in Hmain.
        + injection Hl as <- _. apply in_or_app. right. now left. }
    apply plain_main in Hin. destruct Hin as (g' & _ & _ & ->). reflexivity.
Qed.

Lemma getCommitData_main_list_first_witness :
  exists c, In c (getCommitData pullCommits noStats mainCommits)
            /\ commit_sha c = "c1"%string
            /\ commit_pullRequestId c = None.
Proof.
  apply (getCommitData_main_list_first
           pullCommits noStats mainCommits
           (mkGitHubCommit "c1" "adzialocha" (minutes 10) "Initial commit"));
    [right; left; reflexivity | reflexivity].
Defined.

Lemma dedup_nodup (l : list Tagged) (acc : Acc) :
  NoDup (hashes acc ++ shas l) ->
  fold_left dedup l acc
  = mkAcc (plainCommits acc ++ l) (hashes acc ++ shas l).
Proof.
  revert acc. induction l as [|x l IH]; intros acc H.
  - cbn. rewrite !app_nil_r. now destruct acc.
  - cbn [fold_left]. unfold dedup at 2.
    assert (Hx : includes (hashes acc) (sha (api x)) = false).
    { apply not_true_is_false. intro E. apply includes_In in E.
      apply NoDup_remove_2 in H. apply H. apply in_or_app. now left. }
    rewrite Hx. cbn [negb].
    change (shas (x :: l)) with ([sha (api x)] ++ shas l) in H.
    rewrite app_assoc in H.
    rewrite IH by exact H. cbn [plainCommits hashes].
    now rewrite <- !app_assoc.
Qed.

(** X24.  Where index.mjs returns a commit list, fetch.mjs returns the
    same list: the two scripts differ only in that the first throws on a
    repeated sha. *)
Theorem getCommitData_scripts_agree (pulls : N -> list GitHubCommit)
        (statsOf : string -> Stats) (commits : list GitHubCommit)
        (l : list Commit) :
  getCommitData_index pulls statsOf commits = Js.Ok l ->
  getCommitData pulls statsOf commits = l.
Proof.
  unfold getCommitData_index, getCommitData. intro H.
  set (plain := filterPlainCommits (allCommits pulls commits)) in *.
  destruct (checkDuplicates_spec plain []) as [_ Hnd]; [constructor|].
  destruct (checkDuplicates [] plain) as [res|] eqn:E; [|discriminate].
  injection H as <-. specialize (Hnd res eq_refl).
  now rewrite (dedup_nodup plain (mkAcc [] []) Hnd).
Qed.

Lemma getCommitData_scripts_agree_witness :
  getCommitData (fun _ => []) noStats mainCommits
  = [mkCommit "adzialocha" (minutes 10) "Initial commit" None "c1"
              (noStats "c1")].
Proof.
  apply (getCommitData_scripts_agree (fun _ => []) noStats mainCommits).
  reflexivity.
Defined.

(* ================================================================== *)
(** ** Properties of [requestAll], [truncate] and [getIssueData]        *)
(* ================================================================== *)

Lemma requestAll_from_spec {A} (pageOf : nat -> list A) (n : nat) :
  forall (fuel page : nat) (result : list A),
    (forall k, (k < n)%nat -> pageOf (page + k)%nat <> []) ->
    pageOf (page + n)%nat = [] ->
    (n < fuel)%nat ->
    requestAll_from A pageOf fuel page result
    = Some (result ++ List.concat (map pageOf (seq page n))).
Proof.
  induction n as [|n IH]; intros fuel page result Hfull Hempty Hfuel;
    (destruct fuel as [|fuel]; [lia|]); cbn [requestAll_from].
  - rewrite Nat.add_0_r in Hempty. rewrite Hempty. cbn.
    now rewrite app_nil_r.
  - pose proof (Hfull 0%nat ltac:(lia)) as H0. rewrite Nat.add_0_r in H0.
    destruct (pageOf page) as [|item items] eqn:E; [contradiction|].
    rewrite IH; [| | |lia].
    + cbn [seq map List.concat]. rewrite E, Nat.add_1_r, <- app_assoc.
      reflexivity.
    + intros k Hk. replace (page + 1 + k)%nat with (page + S k)%nat by lia.
      apply Hfull. lia.
    + replace (page + 1 + n)%nat with (page + S n)%nat by lia. exact Hempty.
Qed.

(** X26.  When page [n + 1] is the first empty page, [requestAll]
    returns the items of the pages 1 to [n], in order, after [n + 1]
    requests; no page after the first empty one is read. *)
Theorem requestAll_until_empty_page {A} (pageOf : nat -> list A)
        (n fuel : nat) :
  (forall k, (1 <= k <= n)%nat -> pageOf k <> []) ->
  pageOf (S n) = [] ->
  (n < fuel)%nat ->
  requestAll A pageOf fuel = Some (List.concat (map pageOf (seq 1 n))).
Proof.
  intros Hfull Hempty Hfuel. unfold requestAll.
  rewrite (requestAll_from_spec pageOf n); [reflexivity| | |exact Hfuel].
  - intros k Hk. apply Hfull. lia.
  - exact Hempty.
Qed.

Lemma requestAll_until_empty_page_witness :
  requestAll nat (fun page => if (page <=? 2)%nat then [page; page] else [])
             5
  = Some [1; 1; 2; 2]%nat.
Proof.
  apply (requestAll_until_empty_page
           (fun page => if (page <=? 2)%nat then [page; page] else []) 2 5).
  - intros k Hk. destruct (k <=? 2)%nat eqn:E; [discriminate|].
    apply Nat.leb_gt in E. lia.
  - reflexivity.
  - lia.
Defined.

Lemma requestAll_from_ends {A} (pageOf : nat -> list A) (fuel : nat) :
  forall (page : nat) (result r : list A),
    requestAll_from A pageOf fuel page result = Some r ->
    exists n, (n < fuel)%nat
              /\ pageOf (page + n)%nat = []
              /\ (forall k, (k < n)%nat -> pageOf (page + k)%nat <> [])
              /\ r = result ++ List.concat (map pageOf (seq page n)).
Proof.
  induction fuel as [|fuel IH]; intros page result r H; [discriminate|].
  cbn [requestAll_from] in H.
  destruct (pageOf page) as [|item items] eqn:E.
  - injection H as <-. exists 0%nat. rewrite Nat.add_0_r.
    split; [lia|]. split; [exact E|]. split; [intros; lia|].
    cbn. now rewrite app_nil_r.
  - apply IH in H. destruct H as (n & Hn & Hempty & Hfull & ->).
    exists (S n). split; [lia|].
    split; [now replace (page + S n)%nat with (page + 1 + n)%nat by lia|].
    split.
    + intros [|k] Hk; [rewrite Nat.add_0_r, E; discriminate|].
      replace (page + S k)%nat with (page + 1 + k)%nat by lia.
      apply Hfull. lia.
    + cbn [seq map List.concat]. rewrite E, Nat.add_1_r, <- app_assoc.
      reflexivity.
Qed.

(** X27.  [requestAll] ends only at an empty page: a result is the
    items of the pages before the first empty page, and while every
    page read has items the loop goes on. *)
Theorem requestAll_ends_at_empty_page {A} (pageOf : nat -> list A)
        (fuel : nat) (r : list A) :
  requestAll A pageOf fuel = Some r ->
  exists n, (n < fuel)%nat
            /\ pageOf (S n) = []
            /\ (forall k, (1 <= k <= n)%nat -> pageOf k <> [])
            /\ r = List.concat (map pageOf (seq 1 n)).
Proof.
  unfold requestAll. intro H. apply requestAll_from_ends in H.
  destruct H as (n & Hn & Hempty & Hfull & ->).
  exists n. split; [exact Hn|]. split; [exact Hempty|].
  split; [|reflexivity].
  intros k Hk. replace k with (1 + (k - 1))%nat by lia. apply Hfull. lia.
Qed.

Lemma requestAll_ends_at_empty_page_witness :
  exists n, (n < 5)%nat
            /\ (if (S n <=? 2)%nat then [S n; S n] else []) = []
            /\ (forall k, (1 <= k <= n)%nat ->
                          (if (k <=? 2)%nat then [k; k] else []) <> [])
            /\ [1; 1; 2; 2]%nat
               = List.concat
                   (map (fun page =>
                           if (page <=? 2)%nat then [page; page] else [])
                        (seq 1 n)).
Proof.
  apply (requestAll_ends_at_empty_page
           (fun page => if (page <=? 2)%nat then [page; page] else [])
           5 [1; 1; 2; 2]%nat).
  reflexivity.
Defined.

Lemma length_append (s1 s2 : string) :
  String.length (String.append s1 s2)
  = (String.length s1 + String.length s2)%nat.
Proof. induction s1 as [|c s1 IH]; cbn; [reflexivity|now rewrite IH]. Qed.

Lemma substring0_length (m : nat) (s : string) :
  String.length (substring 0 m s) = Nat.min m (String.length s).
Proof.
  revert s. induction m as [|m IH]; intros [|c s]; cbn; try reflexivity.
  now rewrite IH.
Qed.

Lemma substring0_append (m : nat) (s t : string) :
  (m <= String.length s)%nat ->
  substring 0 m (String.append (substring 0 m s) t) = substring 0 m s.
Proof.
  revert s. induction m as [|m IH]; intros [|c s] H; cbn in *;
    try reflexivity; try lia; try (now destruct t).
  rewrite IH by lia. reflexivity.
Qed.

(** X28.  [truncate] keeps the first [len] characters, returns at most
    [len + 4] characters, may return up to three characters more than it
    was given, and truncating twice is truncating once. *)
Theorem truncate_properties (str : string) (len : nat) :
  (String.length (truncate str len) <= len + 4)%nat
  /\ (String.length (truncate str len) <= String.length str + 3)%nat
  /\ substring 0 len (truncate str len) = substring 0 len str
  /\ truncate (truncate str len) len = truncate str len.
Proof.
  assert (Hshort : forall s, (String.length s <= len)%nat ->
                             truncate s len = s).
  { intros s Hs. unfold truncate. now rewrite (proj2 (Nat.leb_le _ _) Hs). }
  assert (Hlong : forall s, (len < String.length s)%nat ->
                            truncate s len
                            = String.append (substring 0 len s) " ...").
  { intros s Hs. unfold truncate. now rewrite (proj2 (Nat.leb_gt _ _) Hs). }
  destruct (Nat.le_gt_cases (String.length str) len) as [E|E].
  - rewrite !(Hshort str E). repeat split; lia.
  - rewrite !(Hlong str E).
    assert (Hlen : String.length (String.append (substring 0 len str) " ...")
                   = (len + 4)%nat).
    { rewrite length_append, substring0_length. cbn. lia. }
    rewrite Hlen. repeat split; try lia.
    + apply substring0_append. lia.
    + rewrite Hlong by (rewrite Hlen; lia).
      rewrite substring0_append by lia. reflexivity.
Qed.

(** X29.  [getIssueData] returns only events by [options.author] whose
    [created_at] is not below [options.from] in the order of strings,
    and returns every such event.  That order is the one of the code
    units, not that of the instants written: from
    ['2021-09-01T00:00:00.500Z'] on, an event of
    ['2021-09-01T00:00:00Z'], half a second earlier, is returned. *)
Theorem getIssueData_selection (options_from options_author : string)
        (events : list IssueEvent) :
  Forall (fun i => entry_author i = options_author
                   /\ String.compare (entry_date i) options_from <> Lt)
         (getIssueData options_from options_author events)
  /\ (forall ev, In ev events ->
                 String.compare (created_at ev) options_from <> Lt ->
                 actor_login ev = options_author ->
                 In (mkIssueEntry (actor_login ev) (created_at ev) (event ev)
                                  (issue_number ev))
                    (getIssueData options_from options_author events))
  /\ getIssueData "2021-09-01T00:00:00.500Z" options_author
                  [mkIssueEvent "2021-09-01T00:00:00Z" options_author
                                "closed" 3]
     = [mkIssueEntry options_author "2021-09-01T00:00:00Z" "closed" 3].
Proof.
  unfold getIssueData. split; [|split].
  - apply Forall_forall. intros i Hi. apply in_map_iff in Hi.
    destruct Hi as (ev & <- & Hev). apply filter_In in Hev.
    destruct Hev as [_ Hq]. apply andb_true_iff in Hq.
    destruct Hq as [Hd Ha]. apply String.eqb_eq in Ha. cbn.
    split; [exact Ha|]. unfold Js.ge_string in Hd. intro E.
    rewrite E in Hd. discriminate.
  - intros ev Hin Hd Ha. apply in_map_iff. exists ev.
    split; [reflexivity|]. apply filter_In. split; [exact Hin|].
    apply andb_true_iff. split; [|now apply String.eqb_eq].
    unfold Js.ge_string.
    destruct (String.compare (created_at ev) options_from);
      [reflexivity|contradiction|reflexivity].
  - cbn [filter created_at actor_login].
    change (Js.ge_string "2021-09-01T00:00:00Z" "2021-09-01T00:00:00.500Z")
      with true.
    now rewrite String.eqb_refl.
Qed.

Lemma getIssueData_selection_witness :
  In (mkIssueEntry "adzialocha" "2021-09-01T00:00:00Z" "closed" 3)
     (getIssueData "2021-09-01T00:00:00" "adzialocha"
        [mkIssueEvent "2021-08-31T23:59:59Z" "adzialocha" "labeled" 3;
         mkIssueEvent "2021-09-01T00:00:00Z" "adzialocha" "closed" 3;
         mkIssueEvent "2021-09-02T10:00:00Z" "sandreae" "commented" 3]).
Proof.
  apply (proj1 (proj2 (getIssueData_selection
                  "2021-09-01T00:00:00" "adzialocha"
                  [mkIssueEvent "2021-08-31T23:59:59Z" "adzialocha" "labeled" 3;
                   mkIssueEvent "2021-09-01T00:00:00Z" "adzialocha" "closed" 3;
                   mkIssueEvent "2021-09-02T10:00:00Z" "sandreae"
                                "commented" 3]))
               (mkIssueEvent "2021-09-01T00:00:00Z" "adzialocha" "closed" 3));
    [right; left; reflexivity | discriminate | reflexivity].
Defined.
